(** * Hangman: a shallow embedding of [hangman.py] and its specification

    The Python program keeps one [Hangman] object per round.  Its strings are
    modelled as [string] (a list of [ascii], read as the code points
    U+0000..U+00FF), its two lists of guessed letters as [list string] (Python
    lists of one-character [str], in insertion order, as the code appends to
    them), and its terminal as an explicit [World]: the lines still to be read
    by [input] and the events written so far. *)

From Stdlib Require Import Strings.String Strings.Ascii Lists.List Arith.Arith
  Bool.Bool Sorting.Permutation Lia.
Import ListNotations.

Local Open Scope string_scope.
Local Open Scope list_scope.
Local Open Scope nat_scope.

(** ** Python's [str] operations used by the program *)

Module Str.

Definition chars (s : string) : list ascii := list_ascii_of_string s.

(** A one-character [str], as produced by iterating over a [str]. *)
Definition single (c : ascii) : string := String c EmptyString.

Definition code (c : ascii) : nat := nat_of_ascii c.

Definition between (lo hi n : nat) : bool := (lo <=? n) && (n <=? hi).

(** [str.lower] on one code point below U+0100: [A-Z], [À-Ö] and [Ø-Þ]
    move 32 places up, everything else is left alone. *)
Definition lower_char (c : ascii) : ascii :=
  let n := code c in
  if between 65 90 n || between 192 214 n || between 216 222 n
  then ascii_of_nat (n + 32)
  else c.

(** [s.lower()] *)
Fixpoint lower (s : string) : string :=
  match s with
  | EmptyString => EmptyString
  | String c s' => String (lower_char c) (lower s')
  end.

(** The code points below U+0100 in a letter category: [A-Z], [a-z],
    [ª], [µ], [º], [À-Ö], [Ø-ö], [ø-ÿ]. *)
Definition isalpha_char (c : ascii) : bool :=
  let n := code c in
  between 65 90 n || between 97 122 n
  || (n =? 170) || (n =? 181) || (n =? 186)
  || between 192 214 n || between 216 246 n || between 248 255 n.

(** [s.isalpha()]: every character is alphabetic and there is at least
    one character. *)
Definition isalpha (s : string) : bool :=
  match chars s with
  | [] => false
  | cs => forallb isalpha_char cs
  end.

(** [sub in s] for two [str]: [sub] is a contiguous substring of [s]. *)
Fixpoint contains (sub s : string) : bool :=
  String.prefix sub s
  || match s with
     | EmptyString => false
     | String _ s' => contains sub s'
     end.

(** [x in l] for a [str] and a list of [str]. *)
Definition mem (x : string) (l : list string) : bool :=
  existsb (String.eqb x) l.

(** [sep.join(l)] *)
Definition join (sep : string) (l : list string) : string :=
  String.concat sep l.

Definition nl : string := String (ascii_of_nat 10) EmptyString.

End Str.

(** ** The terminal *)

Inductive event : Type :=
| Prompt (text : string)     (* the prompt written by [input(text)] *)
| Print (text : string)      (* [print(text)] *)
| System (command : string). (* [os.system(command)] *)

Record World : Type := mkWorld {
  stdin : list string;   (* the lines [input] has not read yet *)
  stdout : list event    (* what has been written, oldest first *)
}.

(** A call either returns a value and a new world, or [input] met the end of
    the input and raised [EOFError], which nothing in the program catches. *)
Inductive result (A : Type) : Type :=
| Ok (value : A) (w : World)
| EOFError (w : World).
Arguments Ok {A} value w.
Arguments EOFError {A} w.

Definition emit (e : event) (w : World) : World :=
  mkWorld (stdin w) (stdout w ++ [e]).

(** ** [get_guess_word] (lines 81-104) *)

Definition guess_prompt : string :=
  (Str.nl ++ Str.nl ++ "Guess a letter: ")%string.
Definition msg_single : string :=
  (Str.nl ++ "No blanks and only a single letter!")%string.
Definition msg_alpha : string :=
  (Str.nl ++ "Only alphabetic characters are allowed!")%string.
Definition msg_already : string :=
  (Str.nl ++ "You have already guessed that letter!")%string.

(** The [while True] loop reads one line per round, so it is a recursion on
    the lines that are left; [out] is what has been written so far. *)
Fixpoint get_guess_word_loop (lines : list string) (out : list event)
  : result string :=
  match lines with
  | [] => EOFError (mkWorld [] (out ++ [Prompt guess_prompt]))
  | line :: rest =>
      let guess_letter := Str.lower line in
      let out := out ++ [Prompt guess_prompt] in
      if negb (String.length guess_letter =? 1) then
        get_guess_word_loop rest (out ++ [Print msg_single])
      else if negb (Str.isalpha guess_letter) then
        get_guess_word_loop rest (out ++ [Print msg_alpha])
      else
        Ok guess_letter (mkWorld rest (out ++ [System "clear"]))
  end.

Definition get_guess_word (w : World) : result string :=
  get_guess_word_loop (stdin w) (stdout w).

(** ** The class [Hangman] (lines 107-191) *)

Record Hangman : Type := mkHangman {
  player_name : string;
  chosen_word : string;
  missed_letter : list string;
  guessed_letter : list string
}.

(** [__init__]: [name] is what [get_player_names()] returned and [word] the
    element of [word_list] that [choice] picked. *)
Definition Hangman_init (name word : string) : Hangman :=
  mkHangman name word [] [].

(** [display_letters] *)
Definition display_cell (self : Hangman) (char : ascii) : string :=
  if Str.mem (Str.single char) (guessed_letter self) then Str.single char
  else if Ascii.eqb char " " then " "
  else "_".

Definition display_letters (self : Hangman) : string :=
  let word_result := map (display_cell self) (Str.chars (chosen_word self)) in
  Str.join " " word_result.

(** Lines 154-159 of [check_letters], for the letter [get_guess_word]
    returned: the new object and what is printed. *)
Definition check_letters_with (user_letter : string) (self : Hangman)
  : Hangman * list event :=
  if Str.mem user_letter (guessed_letter self)
     || Str.mem user_letter (missed_letter self) then
    (self, [Print msg_already])
  else if Str.contains user_letter (chosen_word self)
          && negb (Str.mem user_letter (guessed_letter self)) then
    (mkHangman (player_name self) (chosen_word self) (missed_letter self)
               (guessed_letter self ++ [user_letter]), [])
  else if negb (Str.contains user_letter (chosen_word self))
          && negb (Str.mem user_letter (missed_letter self)) then
    (mkHangman (player_name self) (chosen_word self)
               (missed_letter self ++ [user_letter]) (guessed_letter self), [])
  else (self, []).

(** [check_letters] *)
Definition check_letters (self : Hangman) (w : World) : result Hangman :=
  match get_guess_word w with
  | EOFError w' => EOFError w'
  | Ok user_letter w' =>
      let (self', printed) := check_letters_with user_letter self in
      Ok self' (mkWorld (stdin w') (stdout w' ++ printed))
  end.

(** [check_game_won] *)
Definition check_game_won (self : Hangman) : bool :=
  if negb (Str.contains "_" (display_letters self)) then true else false.

(** [end_of_game] *)
Definition end_of_game (self : Hangman) : bool :=
  if check_game_won self || (List.length (missed_letter self) =? 6) then true
  else false.

(** [n] calls of [check_letters] in a row on the same object and terminal. *)
Fixpoint check_letters_times (n : nat) (self : Hangman) (w : World)
  : result Hangman :=
  match n with
  | 0 => Ok self w
  | S n' =>
      match check_letters self w with
      | EOFError w' => EOFError w'
      | Ok self' w' => check_letters_times n' self' w'
      end
  end.

(** ** Notions of the specification *)

(** A line the letter prompt accepts: after lowercasing it is exactly one
    alphabetic character. *)
Definition accepted (line : string) : bool :=
  match Str.chars (Str.lower line) with
  | [c] => Str.isalpha_char c
  | _ => false
  end.

(** What a rejected line adds to the terminal: the prompt it answered and the
    error message that names what is wrong with it. *)
Definition reprompt (line : string) : list event :=
  [Prompt guess_prompt;
   Print (if String.length (Str.lower line) =? 1 then msg_alpha
          else msg_single)].

(** A guess as [check_letters] receives it: one alphabetic character that
    lowercasing leaves alone. *)
Definition is_letter (g : string) : Prop :=
  exists c, g = Str.single c /\ Str.isalpha_char c = true
            /\ Str.lower_char c = c.

(** The one-character string [g] is a character of [word]. *)
Definition occurs (g word : string) : bool :=
  match Str.chars g with
  | [c] => existsb (Ascii.eqb c) (Str.chars word)
  | _ => false
  end.

(** The masked word, character by character: a space or a character among
    the hits is shown, anything else is the placeholder. *)
Definition masked_char (hits : list string) (c : ascii) : ascii :=
  if Ascii.eqb c " " || Str.mem (Str.single c) hits then c else "_"%char.

(** The states of a round: [reached name word gs self] when [self] is the
    object after [__init__] and one call of [check_letters] for each letter
    of [gs], the letters the prompt returned, oldest first. *)
Inductive reached (name word : string) : list string -> Hangman -> Prop :=
| reached_init : reached name word [] (Hangman_init name word)
| reached_step gs self w user_letter w1 self' w' :
    reached name word gs self ->
    get_guess_word w = Ok user_letter w1 ->
    check_letters self w = Ok self' w' ->
    reached name word (gs ++ [user_letter]) self'.

(** The object after the guesses [gs], whatever is printed on the way. *)
Definition guess_all (gs : list string) (self : Hangman) : Hangman :=
  fold_left (fun s g => fst (check_letters_with g s)) gs self.

(** The distinct letters of [gs] that are hits, and those that are misses. *)
Definition distinct_hits (word : string) (gs : list string) : list string :=
  nodup string_dec (filter (fun g => occurs g word) gs).

Definition distinct_misses (word : string) (gs : list string) : list string :=
  nodup string_dec (filter (fun g => negb (occurs g word)) gs).

(** What every call of [check_letters] keeps true of the object [self] of
    a round on [word], after the letters [gs]: the two lists split the
    distinct letters guessed so far into those of the word and the others,
    each listed once. *)
Record round_invariant (name word : string) (gs : list string)
  (self : Hangman) : Prop := {
  inv_name : player_name self = name;
  inv_word : chosen_word self = word;
  inv_letters : Forall is_letter gs;
  inv_guessed : forall x,
    In x (guessed_letter self) <-> In x gs /\ occurs x word = true;
  inv_missed : forall x,
    In x (missed_letter self) <-> In x gs /\ occurs x word = false;
  inv_guessed_nodup : NoDup (guessed_letter self);
  inv_missed_nodup : NoDup (missed_letter self)
}.

(** ** The rest of the program *)

(** The two modules the program imports are not part of it; what it takes
    from them comes in as [Assets]. *)
Record Assets : Type := mkAssets {
  hangman_logo : string;   (* [hangman_arts.hangman_logo] *)
  stages : list string;    (* [hangman_arts.hangman_stages] *)
  word_list : list string  (* [hangman_words.word_list] *)
}.

(** Beyond the end of the input, the program can fail on an index: [choice]
    on an empty sequence and [stages[i]] past the last stage both raise
    [IndexError]. *)
Inductive error : Type :=
| EndOfInput
| IndexError.

Inductive outcome (A : Type) : Type :=
| Returns (value : A) (w : World)
| Raises (e : error) (w : World).
Arguments Returns {A} value w.
Arguments Raises {A} e w.

Definition esc : string := String (ascii_of_nat 27) EmptyString.

Fixpoint spaces (n : nat) : string :=
  match n with
  | 0 => EmptyString
  | S n' => String " " (spaces n')
  end.

(** [s.center(width)]: the padding is shared out as CPython does, the odd
    space going to the left when both the padding and the width are odd. *)
Definition center (s : string) (width : nat) : string :=
  let marg := width - String.length s in
  let left := marg / 2 + (if Nat.odd marg && Nat.odd width then 1 else 0) in
  (spaces left ++ s ++ spaces (marg - left))%string.

(** [random.choice(seq)], where [r] is what the generator draws. *)
Definition choice (seq : list string) (r : nat) : option string :=
  match seq with
  | [] => None
  | _ => nth_error seq (r mod List.length seq)
  end.

(** *** [ask_user_yes_no] (lines 14-40) *)

Definition choice_yes : list string := ["yes"; "y"].
Definition choice_no : list string := ["no"; "n"].
Definition msg_invalid : string := (Str.nl ++ "Invalid Input. Try again.")%string.

Fixpoint ask_user_yes_no_loop (yes_no_question : string)
  (lines : list string) (out : list event) : result bool :=
  match lines with
  | [] => EOFError (mkWorld [] (out ++ [Prompt yes_no_question]))
  | line :: rest =>
      let user_choice := Str.lower line in
      let out := out ++ [Prompt yes_no_question] in
      if Str.mem user_choice choice_yes then Ok true (mkWorld rest out)
      else if Str.mem user_choice choice_no then Ok false (mkWorld rest out)
      else ask_user_yes_no_loop yes_no_question rest
             (out ++ [Print msg_invalid])
  end.

Definition ask_user_yes_no (yes_no_question : string) (w : World)
  : result bool :=
  ask_user_yes_no_loop yes_no_question (stdin w) (stdout w).

(** *** [get_random_word] (lines 43-51) *)

Definition get_random_word (assets : Assets) (r : nat) : option string :=
  choice (word_list assets) r.

(** *** [greet_user] (lines 54-57) *)

Definition welcome : string :=
  (esc ++ "[1m ----- WELCOME TO HANGMAN! -----" ++ esc ++ "[0m")%string.

Definition greet_user (assets : Assets) (w : World) : World :=
  emit (Print (center welcome 50)) (emit (Print (hangman_logo assets)) w).

(** *** [get_player_names] (lines 60-78) *)

Definition name_prompt : string :=
  (Str.nl ++ Str.nl ++ "Enter your name: ")%string.
Definition msg_name : string := (Str.nl ++ "Player Name Required!")%string.

Fixpoint get_player_names_loop (lines : list string) (out : list event)
  : result string :=
  match lines with
  | [] => EOFError (mkWorld [] (out ++ [Prompt name_prompt]))
  | player_name :: rest =>
      let out := out ++ [Prompt name_prompt] in
      match player_name with
      | EmptyString => get_player_names_loop rest (out ++ [Print msg_name])
      | _ => Ok player_name (mkWorld rest out)
      end
  end.

Definition get_player_names (assets : Assets) (w : World) : result string :=
  let w := greet_user assets w in
  get_player_names_loop (stdin w) (stdout w).

(** *** [Hangman.__init__] with its effects (lines 125-129) *)

Definition Hangman__init__ (assets : Assets) (r : nat) (w : World)
  : outcome Hangman :=
  match get_player_names assets w with
  | EOFError w' => Raises EndOfInput w'
  | Ok name w' =>
      match get_random_word assets r with
      | None => Raises IndexError w'
      | Some word => Returns (Hangman_init name word) w'
      end
  end.

(** *** [display_game_status] (lines 175-180) *)

Definition status_lines (self : Hangman) : list event :=
  [Print (Str.nl ++ "Incorrect Guesses: "
          ++ Str.join ", " (missed_letter self))%string;
   Print (Str.nl ++ "Letters Guessed: "
          ++ Str.join ", " (guessed_letter self))%string;
   Print (Str.nl ++ "Secret Word: " ++ display_letters self)%string].

Definition display_game_status (assets : Assets) (self : Hangman) (w : World)
  : outcome unit :=
  match nth_error (stages assets) (List.length (missed_letter self)) with
  | None => Raises IndexError w
  | Some stage =>
      Returns tt (mkWorld (stdin w)
                    (stdout w ++ Print stage :: status_lines self))
  end.

(** *** [print_game_result] (lines 182-191) *)

Definition msg_won (name : string) : string :=
  (Str.nl ++ Str.nl ++ "Congratulations, " ++ name
   ++ ", you guessed the word!")%string.
Definition msg_lost (name : string) : string :=
  (Str.nl ++ Str.nl ++ "You lost the game, " ++ name
   ++ ", Better luck next time!")%string.
Definition msg_word (word : string) : string :=
  (Str.nl ++ "The word was " ++ esc ++ "[1m" ++ word ++ esc ++ "[0m.")%string.

Definition print_game_result (self : Hangman) (w : World) : World :=
  let w := if check_game_won self
           then emit (Print (msg_won (player_name self))) w
           else emit (Print (msg_lost (player_name self))) w in
  emit (Print (msg_word (chosen_word self))) w.

(** *** [should_play_again] (lines 194-202) *)

Definition again_question : string :=
  (Str.nl ++ Str.nl ++ "Would you like to play Hangman again? (Y/N): ")%string.

Definition should_play_again (w : World) : result bool :=
  ask_user_yes_no again_question w.

(** *** [play_game] (lines 205-216) *)

(** The [while not hangman_game.end_of_game()] loop.  A turn is not a
    structural step on the input, so the loop counts its turns down from
    [fuel]; [None] is a loop cut short, which [play_game] is shown never to
    meet. *)
Fixpoint play_game_loop (assets : Assets) (fuel : nat) (hangman_game : Hangman)
  (w : World) : option (outcome Hangman) :=
  match fuel with
  | 0 => None
  | S fuel' =>
      if negb (end_of_game hangman_game) then
        match display_game_status assets hangman_game
                (emit (System "clear") w) with
        | Raises e w1 => Some (Raises e w1)
        | Returns _ w1 =>
            match check_letters hangman_game w1 with
            | EOFError w2 => Some (Raises EndOfInput w2)
            | Ok hangman_game' w2 =>
                play_game_loop assets fuel' hangman_game' w2
            end
        end
      else Some (Returns hangman_game w)
  end.

(** What follows the loop: the last status and the result. *)
Definition play_game_end (assets : Assets) (hangman_game : Hangman)
  (w : World) : outcome unit :=
  match display_game_status assets hangman_game w with
  | Raises e w1 => Raises e w1
  | Returns _ w1 => Returns tt (print_game_result hangman_game w1)
  end.

Definition play_game (assets : Assets) (r : nat) (w : World)
  : option (outcome unit) :=
  match Hangman__init__ assets r w with
  | Raises e w1 => Some (Raises e w1)
  | Returns hangman_game w1 =>
      match play_game_loop assets (S (List.length (stdin w1)))
              hangman_game w1 with
      | None => None
      | Some (Raises e w2) => Some (Raises e w2)
      | Some (Returns hangman_game' w2) =>
          Some (play_game_end assets hangman_game' w2)
      end
  end.

(** *** [main] (lines 219-228) *)

Definition msg_exit : string :=
  (Str.nl ++ Str.nl ++ "-----Program Exited-----" ++ Str.nl)%string.

(** The [while True] loop of [main]; [draws n] is what the generator draws
    in round [n]. *)
Fixpoint main_loop (assets : Assets) (draws : nat -> nat) (fuel round : nat)
  (w : World) : option (outcome unit) :=
  match fuel with
  | 0 => None
  | S fuel' =>
      match play_game assets (draws round) (emit (System "clear") w) with
      | None => None
      | Some (Raises e w1) => Some (Raises e w1)
      | Some (Returns _ w1) =>
          match should_play_again w1 with
          | EOFError w2 => Some (Raises EndOfInput w2)
          | Ok again w2 =>
              if negb again then Some (Returns tt w2)
              else main_loop assets draws fuel' (S round) w2
          end
      end
  end.

Definition main (assets : Assets) (draws : nat -> nat) (w : World)
  : option (outcome unit) :=
  match main_loop assets draws (S (List.length (stdin w))) 0 w with
  | Some (Returns _ w') => Some (Returns tt (emit (Print msg_exit) w'))
  | other => other
  end.

(** *** Notions used to state what the rest of the program does *)

(** A line the yes/no prompt takes for an answer. *)
Definition is_answer (line : string) : bool :=
  Str.mem (Str.lower line) choice_yes || Str.mem (Str.lower line) choice_no.

(** A character the letter prompt can return. *)
Definition guessable (c : ascii) : bool :=
  Str.isalpha_char c && Ascii.eqb (Str.lower_char c) c.

(** What the yes/no prompt writes for the lines it does not take. *)
Definition invalid_round_trace (q : string) (rejected : list string)
  : list event :=
  flat_map (fun _ => [Prompt q; Print msg_invalid]) rejected.

(** Two results of a prompt that differ at most in the case of the lines
    left unread. *)
Definition same_up_to_case {A : Type} (r1 r2 : result A) : Prop :=
  match r1, r2 with
  | Ok a w1, Ok b w2 =>
      a = b /\ stdout w1 = stdout w2
      /\ map Str.lower (stdin w1) = map Str.lower (stdin w2)
  | EOFError w1, EOFError w2 => w1 = w2
  | _, _ => False
  end.

(** The distinct entries of [gs], each at the place of its first occurrence. *)
Definition first_guesses (gs : list string) : list string :=
  rev (nodup string_dec (rev gs)).

(** What holds of the object each time the loop of [play_game] tests it:
    at most six misses, and not six of them in a round that is won. *)
Definition within_six (self : Hangman) : Prop :=
  List.length (missed_letter self) <= 6
  /\ (check_game_won self = true -> List.length (missed_letter self) <> 6).

(** The last [n] events of a trace. *)
Definition last_events (n : nat) (out : list event) : list event :=
  skipn (List.length out - n) out.

(** * Properties *)

(** ** The examples of the specification *)

Example cat_render :
  exists s w,
    check_letters_times 2 (Hangman_init "ann" "cat") (mkWorld ["c"; "A"; "t"] [])
    = Ok s w
    /\ display_letters s = "c a _" /\ check_game_won s = false
    /\ exists s' w', check_letters s w = Ok s' w' /\ check_game_won s' = true.
Proof.
  do 2 eexists. split; [reflexivity|]. repeat split.
  do 2 eexists. split; reflexivity.
Qed.

Example dog_lost :
  exists s w,
    check_letters_times 6 (Hangman_init "ann" "dog")
      (mkWorld ["q"; "w"; "e"; "r"; "t"; "y"] [])
    = Ok s w
    /\ List.length (missed_letter s) = 6 /\ check_game_won s = false
    /\ end_of_game s = true.
Proof. do 2 eexists. split; [reflexivity|]. repeat split. Qed.

(** ** Strings *)

Lemma mem_In x l : Str.mem x l = true <-> In x l.
Proof.
  unfold Str.mem. rewrite existsb_exists. split.
  - intros [y [Hy Heq]]. apply String.eqb_eq in Heq. now subst.
  - intros H. exists x. split; [assumption | apply String.eqb_refl].
Qed.

Lemma mem_false x l : Str.mem x l = false <-> ~ In x l.
Proof.
  rewrite <- mem_In. destruct (Str.mem x l); split; congruence.
Qed.

Lemma existsb_ascii_In c l : existsb (Ascii.eqb c) l = true <-> In c l.
Proof.
  rewrite existsb_exists. split.
  - intros [y [Hy Heq]]. apply Ascii.eqb_eq in Heq. now subst.
  - intros H. exists c. split; [assumption | apply Ascii.eqb_refl].
Qed.

Lemma prefix_single c s :
  String.prefix (Str.single c) s
  = match s with EmptyString => false | String d _ => Ascii.eqb c d end.
Proof.
  destruct s as [|d s']; simpl; [reflexivity|].
  destruct (ascii_dec c d) as [->|Hne].
  - rewrite Ascii.eqb_refl. now destruct s'.
  - apply Ascii.eqb_neq in Hne. now rewrite Hne.
Qed.

(** For a one-character string, Python's substring test is the test that
    the character occurs. *)
Lemma contains_single c s :
  Str.contains (Str.single c) s = existsb (Ascii.eqb c) (Str.chars s).
Proof.
  induction s as [|d s' IH].
  - reflexivity.
  - cbn [Str.contains]. rewrite prefix_single, IH. reflexivity.
Qed.

Lemma contains_single_In c s :
  Str.contains (Str.single c) s = true <-> In c (Str.chars s).
Proof. rewrite contains_single. apply existsb_ascii_In. Qed.

Lemma occurs_single c word :
  occurs (Str.single c) word = Str.contains (Str.single c) word.
Proof. now rewrite contains_single. Qed.

Lemma lower_length s : String.length (Str.lower s) = String.length s.
Proof. induction s; simpl; congruence. Qed.

Lemma length_one s : String.length s = 1 -> exists c, s = Str.single c.
Proof.
  destruct s as [|c [|d s']]; simpl; try discriminate.
  intros _. now exists c.
Qed.

Lemma lower_char_idempotent c :
  Str.lower_char (Str.lower_char c) = Str.lower_char c.
Proof.
  destruct c as [[] [] [] [] [] [] [] []]; vm_compute; reflexivity.
Qed.

Lemma underscore_not_alpha : Str.isalpha_char "_" = false.
Proof. reflexivity. Qed.

(** ** The letter prompt *)

(** The two tests of [get_guess_word] together are the acceptance test. *)
Lemma accepted_tests line :
  accepted line
  = (String.length (Str.lower line) =? 1) && Str.isalpha (Str.lower line).
Proof.
  unfold accepted, Str.isalpha.
  destruct (Str.lower line) as [|c [|d s]]; cbn; try reflexivity.
  now rewrite andb_true_r.
Qed.

Lemma accepted_letter line : accepted line = true -> is_letter (Str.lower line).
Proof.
  unfold accepted, is_letter. destruct line as [|c [|d s]]; cbn; try discriminate.
  intros H. exists (Str.lower_char c). repeat split; trivial.
  apply lower_char_idempotent.
Qed.

Lemma is_letter_accepted g : is_letter g -> accepted g = true /\ Str.lower g = g.
Proof.
  intros [c [-> [Ha Hl]]]. unfold accepted. cbn. rewrite Hl. now split.
Qed.

Lemma loop_rejects line rest out :
  accepted line = false ->
  get_guess_word_loop (line :: rest) out
  = get_guess_word_loop rest (out ++ reprompt line).
Proof.
  intros H. rewrite accepted_tests in H. cbn [get_guess_word_loop].
  unfold reprompt.
  destruct (String.length (Str.lower line) =? 1); cbn in *.
  - rewrite H. cbn. now rewrite <- app_assoc.
  - now rewrite <- app_assoc.
Qed.

Lemma loop_accepts line rest out :
  accepted line = true ->
  get_guess_word_loop (line :: rest) out
  = Ok (Str.lower line)
       (mkWorld rest (out ++ [Prompt guess_prompt; System "clear"])).
Proof.
  intros H. rewrite accepted_tests in H. apply andb_true_iff in H as [H1 H2].
  cbn [get_guess_word_loop]. rewrite H1, H2. cbn.
  now rewrite <- app_assoc.
Qed.

(** Whatever the prompt returns is a letter, the lowercase form of one of the
    lines, and at least that line has been read. *)
Lemma loop_returns_letter lines out letter w1 :
  get_guess_word_loop lines out = Ok letter w1 ->
  is_letter letter /\ List.length (stdin w1) < List.length lines.
Proof.
  revert out. induction lines as [|line rest IH]; intros out H.
  - discriminate.
  - destruct (accepted line) eqn:Hacc.
    + rewrite loop_accepts in H by assumption. injection H as <- <-.
      split; [now apply accepted_letter | cbn; lia].
    + rewrite loop_rejects in H by assumption.
      apply IH in H as [Hl Hlen]. split; [assumption | cbn; lia].
Qed.

Lemma get_guess_word_letter w letter w1 :
  get_guess_word w = Ok letter w1 -> is_letter letter.
Proof. intros H. now apply loop_returns_letter in H. Qed.

(** With no acceptable line left the prompt ends in [EOFError]: the loop
    itself never gives up. *)
Lemma get_guess_word_all_rejected rejected out :
  Forall (fun l => accepted l = false) rejected ->
  get_guess_word (mkWorld rejected out)
  = EOFError (mkWorld [] (out ++ flat_map reprompt rejected
                              ++ [Prompt guess_prompt])).
Proof.
  unfold get_guess_word. cbn [stdin stdout]. revert out.
  induction rejected as [|l rejected IH]; intros out Hrej.
  - reflexivity.
  - inversion Hrej as [|? ? Hl Hrest]; subst.
    rewrite loop_rejects by assumption. rewrite IH by assumption.
    cbn [flat_map]. now rewrite <- !app_assoc.
Qed.

(** C9. Over the lines typed at the letter prompt, [get_guess_word] returns
    the lowercase form of the first line that, lowercased, is exactly one
    alphabetic character; each line before it is answered by the prompt
    again and one message: the single-letter message when the lowercased
    line is not one character long, the alphabetic message otherwise.  The
    accepted line ends with the screen cleared, and the lines after it are
    left unread. *)
Theorem get_guess_word_first_accepted rejected line rest out :
  Forall (fun l => accepted l = false) rejected ->
  accepted line = true ->
  get_guess_word (mkWorld (rejected ++ line :: rest) out)
  = Ok (Str.lower line)
       (mkWorld rest (out ++ flat_map reprompt rejected
                          ++ [Prompt guess_prompt; System "clear"])).
Proof.
  unfold get_guess_word. cbn [stdin stdout]. intros Hrej Hacc. revert out.
  induction Hrej as [|l rejected Hl _ IH]; intros out.
  - cbn [app flat_map]. now apply loop_accepts.
  - cbn [app flat_map]. rewrite loop_rejects by assumption.
    rewrite IH. now rewrite <- !app_assoc.
Qed.

Lemma get_guess_word_first_accepted_witness :
  get_guess_word (mkWorld [""; "ab"; "7"; "Q"; "x"] [])
  = Ok "q" (mkWorld ["x"]
              [Prompt guess_prompt; Print msg_single;
               Prompt guess_prompt; Print msg_single;
               Prompt guess_prompt; Print msg_alpha;
               Prompt guess_prompt; System "clear"]).
Proof.
  apply (get_guess_word_first_accepted [""; "ab"; "7"] "Q" ["x"] []).
  - repeat constructor.
  - reflexivity.
Defined.

(** ** One call of [check_letters] *)

Lemma check_letters_eq self w user_letter w1 :
  get_guess_word w = Ok user_letter w1 ->
  check_letters self w
  = Ok (fst (check_letters_with user_letter self))
       (mkWorld (stdin w1)
                (stdout w1 ++ snd (check_letters_with user_letter self))).
Proof.
  intros H. unfold check_letters. rewrite H.
  now destruct (check_letters_with user_letter self).
Qed.

Lemma check_letters_inv self w self' w' :
  check_letters self w = Ok self' w' ->
  exists user_letter w1,
    get_guess_word w = Ok user_letter w1
    /\ self' = fst (check_letters_with user_letter self).
Proof.
  unfold check_letters. destruct (get_guess_word w) as [l w1|] eqn:Hg.
  - destruct (check_letters_with l self) as [s p] eqn:Hw. intros H.
    injection H as <- _. exists l, w1. now rewrite Hw.
  - discriminate.
Qed.

Lemma with_already user_letter self :
  In user_letter (guessed_letter self) \/ In user_letter (missed_letter self) ->
  check_letters_with user_letter self = (self, [Print msg_already]).
Proof.
  intros H. unfold check_letters_with.
  replace (Str.mem user_letter (guessed_letter self)
           || Str.mem user_letter (missed_letter self)) with true;
    [reflexivity|].
  symmetry. apply orb_true_iff. now rewrite !mem_In.
Qed.

Lemma with_new c self :
  ~ In (Str.single c) (guessed_letter self) ->
  ~ In (Str.single c) (missed_letter self) ->
  check_letters_with (Str.single c) self
  = if occurs (Str.single c) (chosen_word self)
    then (mkHangman (player_name self) (chosen_word self)
            (missed_letter self) (guessed_letter self ++ [Str.single c]), [])
    else (mkHangman (player_name self) (chosen_word self)
            (missed_letter self ++ [Str.single c]) (guessed_letter self), []).
Proof.
  intros Hg Hm. apply mem_false in Hg, Hm.
  unfold check_letters_with. rewrite Hg, Hm, occurs_single. cbn.
  now destruct (Str.contains (Str.single c) (chosen_word self)).
Qed.

Lemma world_eta w : mkWorld (stdin w) (stdout w ++ []) = w.
Proof. destruct w. cbn. now rewrite app_nil_r. Qed.

(** C1. When the prompt returns a letter that is in neither list,
    [check_letters] appends it to [guessed_letter] if it is a character of
    [chosen_word] and to [missed_letter] otherwise; the name, the word and
    the other list are as before, and nothing is printed after the prompt. *)
Theorem check_letters_new_letter self w user_letter w1 :
  get_guess_word w = Ok user_letter w1 ->
  ~ In user_letter (guessed_letter self) ->
  ~ In user_letter (missed_letter self) ->
  check_letters self w
  = Ok (if occurs user_letter (chosen_word self)
        then mkHangman (player_name self) (chosen_word self)
               (missed_letter self) (guessed_letter self ++ [user_letter])
        else mkHangman (player_name self) (chosen_word self)
               (missed_letter self ++ [user_letter]) (guessed_letter self))
       w1.
Proof.
  intros Hget Hg Hm. rewrite (check_letters_eq _ _ _ _ Hget).
  destruct (get_guess_word_letter _ _ _ Hget) as [c [-> _]].
  rewrite with_new by assumption.
  destruct (occurs (Str.single c) (chosen_word self)); cbn [fst snd];
    now rewrite world_eta.
Qed.

Lemma check_letters_new_letter_witness :
  check_letters (mkHangman "ann" "cat" ["q"] ["c"]) (mkWorld ["7"; "T"] [])
  = Ok (mkHangman "ann" "cat" ["q"] ["c"; "t"])
       (mkWorld [] [Prompt guess_prompt; Print msg_alpha;
                    Prompt guess_prompt; System "clear"])
  /\ check_letters (mkHangman "ann" "cat" ["q"] ["c"]) (mkWorld ["z"] [])
     = Ok (mkHangman "ann" "cat" ["q"; "z"] ["c"])
          (mkWorld [] [Prompt guess_prompt; System "clear"]).
Proof.
  split.
  - apply (check_letters_new_letter (mkHangman "ann" "cat" ["q"] ["c"])
             (mkWorld ["7"; "T"] []) "t").
    + reflexivity.
    + cbn. intros [H|[]]. discriminate H.
    + cbn. intros [H|[]]. discriminate H.
  - apply (check_letters_new_letter (mkHangman "ann" "cat" ["q"] ["c"])
             (mkWorld ["z"] []) "z").
    + reflexivity.
    + cbn. intros [H|[]]. discriminate H.
    + cbn. intros [H|[]]. discriminate H.
Defined.

(** C5. When the prompt returns a letter that is already in
    [guessed_letter] or in [missed_letter], [check_letters] returns the
    object as it was, so both lists and their lengths are as before; the
    only effect is the message that the letter was already guessed. *)
Theorem check_letters_repeated self w user_letter w1 :
  get_guess_word w = Ok user_letter w1 ->
  In user_letter (guessed_letter self) \/ In user_letter (missed_letter self) ->
  check_letters self w = Ok self (emit (Print msg_already) w1).
Proof.
  intros Hget Hin. rewrite (check_letters_eq _ _ _ _ Hget).
  now rewrite with_already.
Qed.

Lemma check_letters_repeated_witness :
  check_letters (mkHangman "ann" "cat" ["q"] ["c"]) (mkWorld ["Q"] [])
  = Ok (mkHangman "ann" "cat" ["q"] ["c"])
       (mkWorld [] [Prompt guess_prompt; System "clear"; Print msg_already]).
Proof.
  apply (check_letters_repeated (mkHangman "ann" "cat" ["q"] ["c"])
           (mkWorld ["Q"] []) "q"
           (mkWorld [] [Prompt guess_prompt; System "clear"])).
  - reflexivity.
  - right. cbn. now left.
Defined.

(** ** The end of the round *)

Lemma end_of_game_eq self :
  end_of_game self
  = check_game_won self || (List.length (missed_letter self) =? 6).
Proof.
  unfold end_of_game.
  now destruct (check_game_won self || (List.length (missed_letter self) =? 6)).
Qed.

(** C3. [end_of_game] is true exactly when [check_game_won] is true or
    [missed_letter] holds six letters. *)
Theorem end_of_game_iff self :
  end_of_game self = true
  <-> check_game_won self = true \/ List.length (missed_letter self) = 6.
Proof.
  now rewrite end_of_game_eq, orb_true_iff, Nat.eqb_eq.
Qed.

(** ** The masked word *)

Lemma display_cell_masked self c :
  display_cell self c = Str.single (masked_char (guessed_letter self) c).
Proof.
  unfold display_cell, masked_char.
  destruct (Str.mem (Str.single c) (guessed_letter self)).
  - now rewrite orb_true_r.
  - rewrite orb_false_r. destruct (Ascii.eqb c " ") eqn:E; [|reflexivity].
    apply Ascii.eqb_eq in E. now subst.
Qed.

Lemma display_letters_spaced self :
  display_letters self
  = Str.join " " (map Str.single
      (map (masked_char (guessed_letter self)) (Str.chars (chosen_word self)))).
Proof.
  unfold display_letters. rewrite map_map. f_equal.
  apply map_ext. intros c. apply display_cell_masked.
Qed.

Lemma join_singles_cons c d cs :
  Str.join " " (map Str.single (c :: d :: cs))
  = String c (String " " (Str.join " " (map Str.single (d :: cs)))).
Proof. reflexivity. Qed.

(** In a space-joined row of characters the [i]-th character sits at
    position [2 * i], with a space after it unless it is the last. *)
Lemma join_singles_get cs : forall i,
  String.get (2 * i) (Str.join " " (map Str.single cs)) = nth_error cs i.
Proof.
  induction cs as [|c [|d cs'] IH]; intros i.
  - now destruct i.
  - destruct i as [|i]; [reflexivity|].
    replace (2 * S i) with (S (S (2 * i))) by lia. cbn. now destruct i.
  - rewrite join_singles_cons. destruct i as [|i]; [reflexivity|].
    replace (2 * S i) with (S (S (2 * i))) by lia.
    cbn [String.get nth_error]. apply IH.
Qed.

Lemma join_singles_gap cs : forall i,
  S i < List.length cs ->
  String.get (2 * i + 1) (Str.join " " (map Str.single cs)) = Some " "%char.
Proof.
  induction cs as [|c [|d cs'] IH]; intros i Hi.
  - cbn in Hi. lia.
  - cbn in Hi. lia.
  - rewrite join_singles_cons. destruct i as [|i]; [reflexivity|].
    replace (2 * S i + 1) with (S (S (2 * i + 1))) by lia.
    cbn [String.get]. apply IH. cbn in *. lia.
Qed.

Lemma join_singles_length cs :
  String.length (Str.join " " (map Str.single cs)) = 2 * List.length cs - 1.
Proof.
  induction cs as [|c [|d cs'] IH]; try reflexivity.
  rewrite join_singles_cons. cbn [String.length]. rewrite IH.
  cbn [List.length]. lia.
Qed.

Lemma join_singles_contains x cs :
  Str.contains (Str.single x) (Str.join " " (map Str.single cs))
  = existsb (Ascii.eqb x) cs
    || (Ascii.eqb x " " && (1 <? List.length cs)).
Proof.
  rewrite contains_single.
  induction cs as [|c [|d cs'] IH].
  - cbn. now rewrite andb_false_r.
  - cbn. now rewrite andb_false_r, !orb_false_r.
  - rewrite join_singles_cons. cbn [Str.chars list_ascii_of_string existsb].
    fold (Str.chars (Str.join " " (map Str.single (d :: cs')))). rewrite IH.
    cbn [existsb List.length].
    replace (1 <? S (S (List.length cs'))) with true by reflexivity.
    rewrite andb_true_r.
    destruct (Ascii.eqb x c), (Ascii.eqb x " "), (Ascii.eqb x d); cbn;
      rewrite ?orb_true_r; reflexivity.
Qed.

Lemma masked_char_cases hits c :
  masked_char hits c = c
  /\ (c = " "%char \/ In (Str.single c) hits)
  \/ masked_char hits c = "_"%char
     /\ c <> " "%char /\ ~ In (Str.single c) hits.
Proof.
  unfold masked_char. destruct (Ascii.eqb c " ") eqn:E; cbn.
  - left. split; [reflexivity|]. left. now apply Ascii.eqb_eq.
  - apply Ascii.eqb_neq in E.
    destruct (Str.mem (Str.single c) hits) eqn:M.
    + left. split; [reflexivity|]. right. now apply mem_In.
    + right. repeat split; trivial. now apply mem_false.
Qed.

(** C4. [display_letters] is the row of the characters of [chosen_word],
    joined by single spaces, in which a character is itself when it is a
    space or in [guessed_letter] and the placeholder [_] otherwise.  So the
    [i]-th character of the word is shown at position [2 * i], a non-space
    character outside [guessed_letter] is shown there as [_], and no
    character appears anywhere in the row but spaces, placeholders and
    characters of [guessed_letter]. *)
Theorem display_letters_masks self :
  display_letters self
  = Str.join " " (map Str.single
      (map (masked_char (guessed_letter self)) (Str.chars (chosen_word self))))
  /\ (forall i c,
        nth_error (Str.chars (chosen_word self)) i = Some c ->
        String.get (2 * i) (display_letters self)
        = Some (masked_char (guessed_letter self) c))
  /\ (forall i c,
        nth_error (Str.chars (chosen_word self)) i = Some c ->
        c <> " "%char -> ~ In (Str.single c) (guessed_letter self) ->
        String.get (2 * i) (display_letters self) = Some "_"%char)
  /\ (forall i,
        S i < List.length (Str.chars (chosen_word self)) ->
        String.get (2 * i + 1) (display_letters self) = Some " "%char)
  /\ (forall x,
        In x (Str.chars (display_letters self)) ->
        x = " "%char \/ x = "_"%char \/ In (Str.single x) (guessed_letter self)).
Proof.
  assert (Hpos : forall i c,
             nth_error (Str.chars (chosen_word self)) i = Some c ->
             String.get (2 * i) (display_letters self)
             = Some (masked_char (guessed_letter self) c)).
  { intros i c Hn. rewrite display_letters_spaced, join_singles_get.
    now rewrite nth_error_map, Hn. }
  split; [apply display_letters_spaced|]. split; [exact Hpos|].
  split; [|split].
  - intros i c Hn Hsp Hin. rewrite (Hpos i c Hn).
    destruct (masked_char_cases (guessed_letter self) c)
      as [[_ [H|H]]|[H _]]; [contradiction | contradiction | now rewrite H].
  - intros i Hi. rewrite display_letters_spaced. apply join_singles_gap.
    now rewrite length_map.
  - intros x Hx. apply contains_single_In in Hx.
    rewrite display_letters_spaced, join_singles_contains in Hx.
    apply orb_true_iff in Hx as [Hx|Hx].
    + apply existsb_ascii_In, in_map_iff in Hx as [c [Hc _]].
      destruct (masked_char_cases (guessed_letter self) c)
        as [[E [H|H]]|[E _]]; rewrite E in Hc; subst; auto.
    + apply andb_true_iff in Hx as [Hx _]. left. now apply Ascii.eqb_eq.
Qed.

Lemma display_letters_masks_witness :
  String.get (2 * 2)
    (display_letters (mkHangman "ann" "cat" ["q"] ["a"; "c"]))
  = Some "_"%char.
Proof.
  apply (proj1 (proj2 (proj2
           (display_letters_masks (mkHangman "ann" "cat" ["q"] ["a"; "c"]))))
           2 "t"%char).
  - reflexivity.
  - discriminate.
  - cbn. intros [H|[H|[]]]; discriminate H.
Defined.

(** ** Winning *)

Lemma check_game_won_eq self :
  check_game_won self
  = negb (existsb (Ascii.eqb "_")
            (map (masked_char (guessed_letter self))
                 (Str.chars (chosen_word self)))).
Proof.
  unfold check_game_won. rewrite display_letters_spaced.
  change "_"%string with (Str.single "_"). rewrite join_singles_contains.
  change (Ascii.eqb "_" " ") with false. rewrite orb_false_r.
  now destruct (existsb _ _).
Qed.

(** While the placeholder itself is not among the hits, the round is won
    exactly when every character of the word that is not a space is. *)
Lemma check_game_won_iff_hits self :
  ~ In "_"%string (guessed_letter self) ->
  check_game_won self = true
  <-> forall c, In c (Str.chars (chosen_word self)) ->
                c <> " "%char -> In (Str.single c) (guessed_letter self).
Proof.
  intros Hu. rewrite check_game_won_eq, negb_true_iff.
  rewrite <- not_true_iff_false, existsb_ascii_In, in_map_iff. split.
  - intros Hno c Hc Hsp.
    destruct (masked_char_cases (guessed_letter self) c)
      as [[_ [H|H]]|[E _]]; [contradiction | assumption |].
    exfalso. apply Hno. now exists c.
  - intros Hall [c [Hm Hc]].
    destruct (masked_char_cases (guessed_letter self) c)
      as [[E [H|H]]|[_ [Hsp Hin]]].
    + rewrite E in Hm. subst c. discriminate H.
    + rewrite E in Hm. subst c. now apply Hu.
    + apply Hin. now apply Hall.
Qed.

(** ** The invariant of a round *)

Lemma NoDup_snoc (A : Type) (l : list A) (x : A) :
  NoDup l -> ~ In x l -> NoDup (l ++ [x]).
Proof.
  intros Hl Hx. apply (Permutation_NoDup (Permutation_cons_append l x)).
  now constructor.
Qed.

Lemma In_snoc (A : Type) (l : list A) (x y : A) :
  In y (l ++ [x]) <-> In y l \/ y = x.
Proof.
  rewrite in_app_iff. cbn. intuition.
Qed.

Lemma invariant_init name word :
  round_invariant name word [] (Hangman_init name word).
Proof.
  constructor; cbn; try reflexivity; try constructor; intuition.
Qed.

Lemma invariant_step name word gs self user_letter :
  round_invariant name word gs self ->
  is_letter user_letter ->
  round_invariant name word (gs ++ [user_letter])
    (fst (check_letters_with user_letter self)).
Proof.
  intros [Hn Hw Hl Hg Hm Hgd Hmd] Hletter.
  assert (Hl' : Forall is_letter (gs ++ [user_letter])).
  { apply Forall_app. split; [assumption | now constructor]. }
  destruct (in_dec string_dec user_letter (guessed_letter self)) as [Hin|Hng];
    [|destruct (in_dec string_dec user_letter (missed_letter self))
        as [Hin|Hnm]].
  - rewrite with_already by now left. cbn [fst].
    pose proof (proj1 (Hg _) Hin) as [Hgs Hocc].
    constructor; trivial; intros x; rewrite In_snoc.
    + rewrite Hg. intuition. now subst.
    + rewrite Hm. intuition. subst. congruence.
  - rewrite with_already by now right. cbn [fst].
    pose proof (proj1 (Hm _) Hin) as [Hgs Hocc].
    constructor; trivial; intros x; rewrite In_snoc.
    + rewrite Hg. intuition. subst. congruence.
    + rewrite Hm. intuition. now subst.
  - destruct Hletter as [c [-> _]]. rewrite with_new by assumption.
    rewrite Hw. destruct (occurs (Str.single c) word) eqn:Hocc; cbn [fst].
    + constructor; cbn; trivial.
      * intros x. rewrite !In_snoc, Hg. intuition. now subst.
      * intros x. rewrite In_snoc, Hm. intuition. subst. congruence.
      * now apply NoDup_snoc.
    + constructor; cbn; trivial.
      * intros x. rewrite In_snoc, Hg. intuition. subst. congruence.
      * intros x. rewrite !In_snoc, Hm. intuition. now subst.
      * now apply NoDup_snoc.
Qed.

Lemma reached_invariant name word gs self :
  reached name word gs self -> round_invariant name word gs self.
Proof.
  induction 1 as [|gs self w l w1 self' w' _ IH Hget Hcheck].
  - apply invariant_init.
  - rewrite (check_letters_eq _ _ _ _ Hget) in Hcheck.
    injection Hcheck as <- _.
    apply invariant_step; [assumption|].
    now apply get_guess_word_letter in Hget.
Qed.

Lemma guess_all_invariant name word gs : forall history self,
  round_invariant name word history self ->
  Forall is_letter gs ->
  round_invariant name word (history ++ gs) (guess_all gs self).
Proof.
  induction gs as [|g gs IH]; intros history self Hinv Hgs.
  - now rewrite app_nil_r.
  - inversion Hgs as [|? ? Hg Hrest]; subst. cbn [guess_all fold_left].
    change (history ++ g :: gs) with (history ++ [g] ++ gs).
    rewrite app_assoc. apply IH; [|assumption].
    now apply invariant_step.
Qed.

Lemma underscore_not_letter : ~ is_letter "_".
Proof.
  intros [c [H [Ha _]]]. injection H as <-. discriminate Ha.
Qed.

Lemma invariant_guessed_letters name word gs self x :
  round_invariant name word gs self ->
  In x (guessed_letter self) ->
  exists c, x = Str.single c /\ Str.isalpha_char c = true
            /\ In c (Str.chars word).
Proof.
  intros Hinv Hx. apply (inv_guessed _ _ _ _ Hinv) in Hx as [Hgs Hocc].
  pose proof (inv_letters _ _ _ _ Hinv) as Hl.
  rewrite Forall_forall in Hl. destruct (Hl _ Hgs) as [c [-> [Ha _]]].
  exists c. repeat split; trivial.
  rewrite occurs_single in Hocc. now apply contains_single_In.
Qed.

Lemma invariant_missed_letters name word gs self x :
  round_invariant name word gs self ->
  In x (missed_letter self) ->
  exists c, x = Str.single c /\ Str.isalpha_char c = true
            /\ ~ In c (Str.chars word).
Proof.
  intros Hinv Hx. apply (inv_missed _ _ _ _ Hinv) in Hx as [Hgs Hocc].
  pose proof (inv_letters _ _ _ _ Hinv) as Hl.
  rewrite Forall_forall in Hl. destruct (Hl _ Hgs) as [c [-> [Ha _]]].
  exists c. repeat split; trivial.
  rewrite occurs_single in Hocc. rewrite <- contains_single_In. congruence.
Qed.

Lemma invariant_no_placeholder name word gs self :
  round_invariant name word gs self -> ~ In "_"%string (guessed_letter self).
Proof.
  intros Hinv Hx. apply (inv_guessed _ _ _ _ Hinv) in Hx as [Hgs _].
  pose proof (inv_letters _ _ _ _ Hinv) as Hl.
  rewrite Forall_forall in Hl. exact (underscore_not_letter (Hl _ Hgs)).
Qed.

(** C2. In every state of a round, [check_game_won] is true exactly when
    every character of [chosen_word] that is not a space is in
    [guessed_letter]. *)
Theorem check_game_won_iff name word gs self :
  reached name word gs self ->
  check_game_won self = true
  <-> forall c, In c (Str.chars (chosen_word self)) ->
                c <> " "%char -> In (Str.single c) (guessed_letter self).
Proof.
  intros Hr. apply check_game_won_iff_hits.
  eapply invariant_no_placeholder, reached_invariant, Hr.
Qed.

Lemma check_game_won_iff_witness :
  check_game_won (mkHangman "ann" "a b" ["q"] ["b"; "a"]) = true
  <-> forall c, In c (Str.chars "a b") ->
                c <> " "%char -> In (Str.single c) ["b"; "a"].
Proof.
  apply (check_game_won_iff "ann" "a b" ((([] ++ ["b"]) ++ ["q"]) ++ ["a"])).
  apply (reached_step "ann" "a b" _ (mkHangman "ann" "a b" ["q"] ["b"])
           (mkWorld ["A"] []) "a"
           (mkWorld [] [Prompt guess_prompt; System "clear"])
           _ (mkWorld [] [Prompt guess_prompt; System "clear"]));
    [ | reflexivity | reflexivity ].
  apply (reached_step "ann" "a b" _ (mkHangman "ann" "a b" [] ["b"])
           (mkWorld ["q"] []) "q"
           (mkWorld [] [Prompt guess_prompt; System "clear"])
           _ (mkWorld [] [Prompt guess_prompt; System "clear"]));
    [ | reflexivity | reflexivity ].
  apply (reached_step "ann" "a b" _ (Hangman_init "ann" "a b")
           (mkWorld ["b"] []) "b"
           (mkWorld [] [Prompt guess_prompt; System "clear"])
           _ (mkWorld [] [Prompt guess_prompt; System "clear"]));
    [ | reflexivity | reflexivity ].
  apply reached_init.
Defined.

(** Outside the states of a round the equivalence can fail: were the
    placeholder itself among the hits, a word that has it would never be
    won.  The prompt never returns it, as it is not alphabetic. *)
Example placeholder_among_hits :
  check_game_won (mkHangman "ann" "a_" [] ["a"; "_"]) = false.
Proof. reflexivity. Qed.

(** ** Hits and misses *)

(** One call appends at most one letter, to one list. *)
Lemma check_letters_appends self w self' w' :
  check_letters self w = Ok self' w' ->
  (guessed_letter self' = guessed_letter self
   /\ missed_letter self' = missed_letter self)
  \/ (exists l, guessed_letter self' = guessed_letter self ++ [l]
                /\ missed_letter self' = missed_letter self)
  \/ (exists l, missed_letter self' = missed_letter self ++ [l]
                /\ guessed_letter self' = guessed_letter self).
Proof.
  intros H. apply check_letters_inv in H as [l [w1 [_ ->]]].
  unfold check_letters_with.
  repeat match goal with
         | |- context [if ?b then _ else _] => destruct b
         end; cbn [fst guessed_letter missed_letter]; eauto.
Qed.

(** C6. In every state reached from a fresh object by calls of
    [check_letters], no letter is in both [guessed_letter] and
    [missed_letter]; and a further call leaves both lists alone or appends
    one letter to exactly one of them. *)
Theorem guessed_missed_disjoint name word gs self :
  reached name word gs self ->
  (forall x, In x (guessed_letter self) -> In x (missed_letter self) -> False)
  /\ (forall w self' w',
        check_letters self w = Ok self' w' ->
        (guessed_letter self' = guessed_letter self
         /\ missed_letter self' = missed_letter self)
        \/ (exists l, guessed_letter self' = guessed_letter self ++ [l]
                      /\ missed_letter self' = missed_letter self)
        \/ (exists l, missed_letter self' = missed_letter self ++ [l]
                      /\ guessed_letter self' = guessed_letter self)).
Proof.
  intros Hr. apply reached_invariant in Hr. split.
  - intros x Hg Hm.
    apply (inv_guessed _ _ _ _ Hr) in Hg as [_ Hg].
    apply (inv_missed _ _ _ _ Hr) in Hm as [_ Hm]. congruence.
  - intros w self' w'. apply check_letters_appends.
Qed.

Lemma guessed_missed_disjoint_witness :
  Forall (fun x => ~ In x ["q"]) ["b"; "a"].
Proof.
  apply Forall_forall. intros x Hg Hm.
  apply (proj1 (guessed_missed_disjoint "ann" "a b"
                  ((([] ++ ["b"]) ++ ["q"]) ++ ["a"])
                  (mkHangman "ann" "a b" ["q"] ["b"; "a"])
    ltac:(
      apply (reached_step "ann" "a b" _ (mkHangman "ann" "a b" ["q"] ["b"])
               (mkWorld ["A"] []) "a"
               (mkWorld [] [Prompt guess_prompt; System "clear"])
               _ (mkWorld [] [Prompt guess_prompt; System "clear"]));
        [ | reflexivity | reflexivity ];
      apply (reached_step "ann" "a b" _ (mkHangman "ann" "a b" [] ["b"])
               (mkWorld ["q"] []) "q"
               (mkWorld [] [Prompt guess_prompt; System "clear"])
               _ (mkWorld [] [Prompt guess_prompt; System "clear"]));
        [ | reflexivity | reflexivity ];
      apply (reached_step "ann" "a b" _ (Hangman_init "ann" "a b")
               (mkWorld ["b"] []) "b"
               (mkWorld [] [Prompt guess_prompt; System "clear"])
               _ (mkWorld [] [Prompt guess_prompt; System "clear"]));
        [ | reflexivity | reflexivity ];
      apply reached_init)) x Hg Hm).
Defined.

(** C10. In every state reached from a fresh object by calls of
    [check_letters], every entry of [guessed_letter] is a character of
    [chosen_word], every entry of [missed_letter] is a character that is not
    in [chosen_word], and neither list repeats an entry; so the length of
    each list is the number of distinct letters guessed so far that are
    hits, respectively misses. *)
Theorem reached_lists_exact name word gs self :
  reached name word gs self ->
  (forall x, In x (guessed_letter self) ->
     exists c, x = Str.single c /\ In c (Str.chars (chosen_word self)))
  /\ (forall x, In x (missed_letter self) ->
        exists c, x = Str.single c /\ ~ In c (Str.chars (chosen_word self)))
  /\ NoDup (guessed_letter self)
  /\ NoDup (missed_letter self)
  /\ List.length (guessed_letter self)
     = List.length (distinct_hits (chosen_word self) gs)
  /\ List.length (missed_letter self)
     = List.length (distinct_misses (chosen_word self) gs).
Proof.
  intros Hr. apply reached_invariant in Hr.
  rewrite (inv_word _ _ _ _ Hr).
  split; [|split; [|split; [|split; [|split]]]].
  - intros x Hx.
    destruct (invariant_guessed_letters _ _ _ _ _ Hr Hx) as [c [E [_ Hc]]].
    now exists c.
  - intros x Hx.
    destruct (invariant_missed_letters _ _ _ _ _ Hr Hx) as [c [E [_ Hc]]].
    now exists c.
  - apply (inv_guessed_nodup _ _ _ _ Hr).
  - apply (inv_missed_nodup _ _ _ _ Hr).
  - apply Permutation_length, NoDup_Permutation.
    + apply (inv_guessed_nodup _ _ _ _ Hr).
    + apply NoDup_nodup.
    + intros x. unfold distinct_hits.
      rewrite nodup_In, filter_In. apply (inv_guessed _ _ _ _ Hr).
  - apply Permutation_length, NoDup_Permutation.
    + apply (inv_missed_nodup _ _ _ _ Hr).
    + apply NoDup_nodup.
    + intros x. unfold distinct_misses.
      rewrite nodup_In, filter_In, negb_true_iff.
      apply (inv_missed _ _ _ _ Hr).
Qed.

Lemma reached_lists_exact_witness :
  List.length ["b"; "a"] = List.length (distinct_hits "a b" ["b"; "q"; "a"; "b"])
  /\ List.length ["q"]
     = List.length (distinct_misses "a b" ["b"; "q"; "a"; "b"]).
Proof.
  apply (reached_lists_exact "ann" "a b"
           (((([] ++ ["b"]) ++ ["q"]) ++ ["a"]) ++ ["b"])
           (mkHangman "ann" "a b" ["q"] ["b"; "a"])).
  apply (reached_step "ann" "a b" _ (mkHangman "ann" "a b" ["q"] ["b"; "a"])
           (mkWorld ["B"] []) "b"
           (mkWorld [] [Prompt guess_prompt; System "clear"])
           _ (mkWorld [] [Prompt guess_prompt; System "clear";
                          Print msg_already]));
    [ | reflexivity | reflexivity ].
  apply (reached_step "ann" "a b" _ (mkHangman "ann" "a b" ["q"] ["b"])
           (mkWorld ["A"] []) "a"
           (mkWorld [] [Prompt guess_prompt; System "clear"])
           _ (mkWorld [] [Prompt guess_prompt; System "clear"]));
    [ | reflexivity | reflexivity ].
  apply (reached_step "ann" "a b" _ (mkHangman "ann" "a b" [] ["b"])
           (mkWorld ["q"] []) "q"
           (mkWorld [] [Prompt guess_prompt; System "clear"])
           _ (mkWorld [] [Prompt guess_prompt; System "clear"]));
    [ | reflexivity | reflexivity ].
  apply (reached_step "ann" "a b" _ (Hangman_init "ann" "a b")
           (mkWorld ["b"] []) "b"
           (mkWorld [] [Prompt guess_prompt; System "clear"])
           _ (mkWorld [] [Prompt guess_prompt; System "clear"]));
    [ | reflexivity | reflexivity ].
  apply reached_init.
Defined.

(** ** Rounds of typed letters *)

(** Every letter can be the answer of the prompt: type it. *)
Lemma get_guess_word_typed g rest out :
  is_letter g ->
  get_guess_word (mkWorld (g :: rest) out)
  = Ok g (mkWorld rest (out ++ [Prompt guess_prompt; System "clear"])).
Proof.
  intros Hg. apply is_letter_accepted in Hg as [Hacc Hlow].
  unfold get_guess_word. cbn [stdin stdout].
  rewrite loop_accepts by assumption. now rewrite Hlow.
Qed.

Lemma check_letters_typed g rest out self :
  is_letter g ->
  check_letters self (mkWorld (g :: rest) out)
  = Ok (fst (check_letters_with g self))
       (mkWorld rest
          ((out ++ [Prompt guess_prompt; System "clear"])
           ++ snd (check_letters_with g self))).
Proof.
  intros Hg. now rewrite (check_letters_eq _ _ _ _ (get_guess_word_typed _ rest out Hg)).
Qed.

(** Typing one letter per line, [check_letters] never meets the end of the
    input before the letters are used up. *)
Lemma times_typed gs : forall self rest out,
  Forall is_letter gs ->
  exists out',
    check_letters_times (List.length gs) self (mkWorld (gs ++ rest) out)
    = Ok (guess_all gs self) (mkWorld rest out').
Proof.
  induction gs as [|g gs IH]; intros self rest out Hgs.
  - now exists out.
  - inversion Hgs as [|? ? Hg Hrest]; subst.
    cbn [List.length check_letters_times app].
    rewrite check_letters_typed by assumption. now apply IH.
Qed.

Lemma times_typed_prefix gs k self out :
  Forall is_letter gs -> k <= List.length gs ->
  exists w,
    check_letters_times k self (mkWorld gs out)
    = Ok (guess_all (firstn k gs) self) w.
Proof.
  intros Hgs Hk.
  assert (Hpre : Forall is_letter (firstn k gs)).
  { rewrite <- (firstn_skipn k gs) in Hgs. now apply Forall_app in Hgs. }
  destruct (times_typed (firstn k gs) self (skipn k gs) out Hpre) as [out' H].
  rewrite firstn_skipn, firstn_length_le in H by assumption. eauto.
Qed.

Lemma In_firstn (A : Type) (k : nat) (l : list A) (x : A) :
  In x (firstn k l) -> In x l.
Proof.
  intros H. rewrite <- (firstn_skipn k l). apply in_or_app. now left.
Qed.

(** Guessing only letters of the word records no miss. *)
Lemma only_hits_no_miss name word gs self :
  round_invariant name word gs self ->
  (forall g, In g gs -> occurs g word = true) ->
  missed_letter self = [].
Proof.
  intros Hinv Hhits. destruct (missed_letter self) as [|x l] eqn:E;
    [reflexivity|].
  assert (Hx : In x (missed_letter self)) by (rewrite E; now left).
  apply (inv_missed _ _ _ _ Hinv) in Hx as [Hgs Hocc].
  rewrite (Hhits _ Hgs) in Hocc. discriminate.
Qed.

(** C7. For every secret word and every sequence of letters of the word
    that covers each of its non-space characters, typed one per line into a
    fresh round: the calls of [check_letters] all return, [check_game_won]
    is true after the last of them, and after each of them (and before the
    first) [missed_letter] is empty, so it never holds six letters.  Neither
    the distinctness of the guesses nor the shape of the word is needed. *)
Theorem covering_guesses_win name word gs out :
  Forall is_letter gs ->
  (forall g, In g gs -> occurs g word = true) ->
  (forall c, In c (Str.chars word) -> c <> " "%char -> In (Str.single c) gs) ->
  (exists self w,
      check_letters_times (List.length gs) (Hangman_init name word)
        (mkWorld gs out) = Ok self w
      /\ check_game_won self = true)
  /\ (forall k, k <= List.length gs ->
        exists self w,
          check_letters_times k (Hangman_init name word) (mkWorld gs out)
          = Ok self w
          /\ missed_letter self = []
          /\ List.length (missed_letter self) <> 6).
Proof.
  intros Hgs Hhits Hcover. split.
  - destruct (times_typed_prefix gs (List.length gs)
                (Hangman_init name word) out Hgs (le_n _)) as [w Hrun].
    rewrite firstn_all in Hrun.
    pose proof (guess_all_invariant name word gs [] _
                  (invariant_init name word) Hgs) as Hinv.
    cbn [app] in Hinv.
    exists (guess_all gs (Hangman_init name word)), w.
    split; [assumption|].
    apply check_game_won_iff_hits.
    + eapply invariant_no_placeholder, Hinv.
    + rewrite (inv_word _ _ _ _ Hinv). intros c Hc Hsp.
      apply (inv_guessed _ _ _ _ Hinv). split.
      * now apply Hcover.
      * rewrite occurs_single. now apply contains_single_In.
  - intros k Hk.
    destruct (times_typed_prefix gs k (Hangman_init name word) out Hgs Hk)
      as [w Hrun].
    assert (Hpre : Forall is_letter (firstn k gs)).
    { rewrite <- (firstn_skipn k gs) in Hgs. now apply Forall_app in Hgs. }
    pose proof (guess_all_invariant name word (firstn k gs) [] _
                  (invariant_init name word) Hpre) as Hinv.
    cbn [app] in Hinv.
    assert (Hnone : missed_letter (guess_all (firstn k gs)
                                     (Hangman_init name word)) = []).
    { apply (only_hits_no_miss _ _ _ _ Hinv).
      intros g Hg. apply Hhits. now apply In_firstn in Hg. }
    exists (guess_all (firstn k gs) (Hangman_init name word)), w.
    repeat split; trivial. now rewrite Hnone.
Qed.

Lemma covering_guesses_win_witness :
  (exists self w,
      check_letters_times 3 (Hangman_init "ann" "cat")
        (mkWorld ["t"; "c"; "a"] []) = Ok self w
      /\ check_game_won self = true)
  /\ (forall k, k <= 3 ->
        exists self w,
          check_letters_times k (Hangman_init "ann" "cat")
            (mkWorld ["t"; "c"; "a"] [])
          = Ok self w
          /\ missed_letter self = []
          /\ List.length (missed_letter self) <> 6).
Proof.
  apply (covering_guesses_win "ann" "cat" ["t"; "c"; "a"] []).
  - repeat constructor;
      [exists "t"%char | exists "c"%char | exists "a"%char];
      repeat split.
  - cbn. intros g [<-|[<-|[<-|[]]]]; reflexivity.
  - cbn. intros c [<-|[<-|[<-|[]]]] _; auto.
Defined.

(** C8. For every secret word and every six distinct letters none of
    which is in the word, typed one per line into a fresh round in any
    order: the six calls of [check_letters] all return, and afterwards
    [missed_letter] holds six letters, so [end_of_game] is true. *)
Theorem six_misses_lose name word gs order out :
  List.length gs = 6 ->
  NoDup gs ->
  Forall is_letter gs ->
  (forall g, In g gs -> occurs g word = false) ->
  Permutation gs order ->
  exists self w,
    check_letters_times 6 (Hangman_init name word) (mkWorld order out)
    = Ok self w
    /\ List.length (missed_letter self) = 6
    /\ end_of_game self = true.
Proof.
  intros Hlen Hnd Hgs Hmiss Hperm.
  assert (Hlen' : List.length order = 6)
    by (now rewrite <- (Permutation_length Hperm)).
  assert (Hgs' : Forall is_letter order).
  { rewrite Forall_forall in *. intros g Hg. apply Hgs.
    now apply (Permutation_in _ (Permutation_sym Hperm)). }
  destruct (times_typed_prefix order 6 (Hangman_init name word) out Hgs')
    as [w Hrun]; [lia|].
  rewrite <- Hlen', firstn_all in Hrun. rewrite Hlen' in Hrun.
  pose proof (guess_all_invariant name word order [] _
                (invariant_init name word) Hgs') as Hinv.
  cbn [app] in Hinv.
  assert (Hsix : List.length
                   (missed_letter (guess_all order (Hangman_init name word)))
                 = 6).
  { rewrite <- Hlen'. apply Permutation_length, NoDup_Permutation.
    - apply (inv_missed_nodup _ _ _ _ Hinv).
    - apply (Permutation_NoDup Hperm Hnd).
    - intros x. rewrite (inv_missed _ _ _ _ Hinv). split.
      + now intros [H _].
      + intros H. split; [assumption|]. apply Hmiss.
        now apply (Permutation_in _ (Permutation_sym Hperm)). }
  exists (guess_all order (Hangman_init name word)), w.
  repeat split; trivial.
  rewrite end_of_game_eq, Hsix. apply orb_true_r.
Qed.

Lemma six_misses_lose_witness :
  exists self w,
    check_letters_times 6 (Hangman_init "ann" "dog")
      (mkWorld ["y"; "t"; "r"; "e"; "w"; "q"] [])
    = Ok self w
    /\ List.length (missed_letter self) = 6
    /\ end_of_game self = true.
Proof.
  apply (six_misses_lose "ann" "dog" ["q"; "w"; "e"; "r"; "t"; "y"]
           ["y"; "t"; "r"; "e"; "w"; "q"] []).
  - reflexivity.
  - repeat constructor; cbn; intuition discriminate.
  - repeat constructor;
      [exists "q"%char | exists "w"%char | exists "e"%char
       | exists "r"%char | exists "t"%char | exists "y"%char];
      repeat split.
  - cbn. intros g [<-|[<-|[<-|[<-|[<-|[<-|[]]]]]]]; reflexivity.
  - change ["y"; "t"; "r"; "e"; "w"; "q"]
      with (rev ["q"; "w"; "e"; "r"; "t"; "y"]).
    apply Permutation_rev.
Defined.

(** * The rest of the program *)

(** ** The yes/no prompt *)

Lemma lower_idempotent s : Str.lower (Str.lower s) = Str.lower s.
Proof.
  induction s as [|c s IH]; cbn; [reflexivity|].
  now rewrite lower_char_idempotent, IH.
Qed.

Lemma ask_loop_rejects q line rest out :
  is_answer line = false ->
  ask_user_yes_no_loop q (line :: rest) out
  = ask_user_yes_no_loop q rest (out ++ [Prompt q; Print msg_invalid]).
Proof.
  unfold is_answer. intros H. apply orb_false_iff in H as [Hy Hn].
  cbn [ask_user_yes_no_loop]. rewrite Hy, Hn. now rewrite <- app_assoc.
Qed.

Lemma ask_loop_answers q line rest out :
  is_answer line = true ->
  ask_user_yes_no_loop q (line :: rest) out
  = Ok (Str.mem (Str.lower line) choice_yes) (mkWorld rest (out ++ [Prompt q])).
Proof.
  unfold is_answer. intros H. cbn [ask_user_yes_no_loop].
  destruct (Str.mem (Str.lower line) choice_yes); [reflexivity|].
  rewrite orb_false_l in H. now rewrite H.
Qed.

(** X1. [ask_user_yes_no] answers with the first line that, lowercased, is
    one of [yes], [y], [no], [n]: true for the first two, false for the
    others.  Every line before it costs the question again and the
    invalid-input message, and the lines after it stay unread. *)
Theorem ask_user_yes_no_first_answer q rejected line rest out :
  Forall (fun l => is_answer l = false) rejected ->
  is_answer line = true ->
  ask_user_yes_no q (mkWorld (rejected ++ line :: rest) out)
  = Ok (Str.mem (Str.lower line) choice_yes)
       (mkWorld rest (out ++ invalid_round_trace q rejected ++ [Prompt q])).
Proof.
  unfold ask_user_yes_no, invalid_round_trace. cbn [stdin stdout].
  intros Hrej Hans. revert out.
  induction Hrej as [|l rejected Hl _ IH]; intros out.
  - cbn [app flat_map]. now apply ask_loop_answers.
  - cbn [app flat_map]. rewrite ask_loop_rejects by assumption.
    rewrite IH. now rewrite <- !app_assoc.
Qed.

Lemma ask_user_yes_no_first_answer_witness :
  ask_user_yes_no "again? " (mkWorld ["maybe"; ""; "NO"; "yes"] [])
  = Ok false
       (mkWorld ["yes"]
          [Prompt "again? "; Print msg_invalid;
           Prompt "again? "; Print msg_invalid; Prompt "again? "]).
Proof.
  apply (ask_user_yes_no_first_answer "again? " ["maybe"; ""] "NO" ["yes"] []).
  - repeat constructor.
  - reflexivity.
Defined.

Lemma ask_loop_eof q lines : forall out w',
  ask_user_yes_no_loop q lines out = EOFError w' ->
  Forall (fun l => is_answer l = false) lines.
Proof.
  induction lines as [|l lines IH]; intros out w' H.
  - constructor.
  - destruct (is_answer l) eqn:Hl.
    + rewrite ask_loop_answers in H by assumption. discriminate.
    + rewrite ask_loop_rejects in H by assumption.
      constructor; [assumption | eapply IH, H].
Qed.

Lemma ask_loop_all_rejected q lines : forall out,
  Forall (fun l => is_answer l = false) lines ->
  ask_user_yes_no_loop q lines out
  = EOFError (mkWorld [] (out ++ invalid_round_trace q lines ++ [Prompt q])).
Proof.
  unfold invalid_round_trace.
  induction lines as [|l lines IH]; intros out Hrej.
  - reflexivity.
  - inversion Hrej as [|? ? Hl Hrest]; subst.
    rewrite ask_loop_rejects by assumption. rewrite IH by assumption.
    cbn [flat_map]. now rewrite <- !app_assoc.
Qed.

(** X2. [ask_user_yes_no] ends in [EOFError] exactly when no line left on
    the input is an answer; it has then read every line, and asked once
    more than it was given lines. *)
Theorem ask_user_yes_no_eof_iff q w :
  ((exists w', ask_user_yes_no q w = EOFError w')
   <-> Forall (fun l => is_answer l = false) (stdin w))
  /\ forall w',
       ask_user_yes_no q w = EOFError w' ->
       w' = mkWorld [] (stdout w ++ invalid_round_trace q (stdin w)
                                 ++ [Prompt q]).
Proof.
  unfold ask_user_yes_no. split; [split|].
  - intros [w' H]. eapply ask_loop_eof, H.
  - intros H. eexists. now apply ask_loop_all_rejected.
  - intros w' H. pose proof (ask_loop_eof _ _ _ _ H) as Hrej.
    rewrite (ask_loop_all_rejected _ _ _ Hrej) in H. now injection H.
Qed.

(** ** The letter prompt, further *)

Lemma loop_eof lines : forall out w',
  get_guess_word_loop lines out = EOFError w' ->
  Forall (fun l => accepted l = false) lines.
Proof.
  induction lines as [|l lines IH]; intros out w' H.
  - constructor.
  - destruct (accepted l) eqn:Hl.
    + rewrite loop_accepts in H by assumption. discriminate.
    + rewrite loop_rejects in H by assumption.
      constructor; [assumption | eapply IH, H].
Qed.

(** X3. [get_guess_word] ends in [EOFError] exactly when no line left on
    the input is a single alphabetic character; it has then read every
    line, answered each with its message, and asked once more. *)
Theorem get_guess_word_eof_iff w :
  ((exists w', get_guess_word w = EOFError w')
   <-> Forall (fun l => accepted l = false) (stdin w))
  /\ forall w',
       get_guess_word w = EOFError w' ->
       w' = mkWorld [] (stdout w ++ flat_map reprompt (stdin w)
                                 ++ [Prompt guess_prompt]).
Proof.
  destruct w as [lines out]. cbn [stdin stdout]. split; [split|].
  - intros [w' H]. eapply loop_eof, H.
  - intros H. eexists. now apply get_guess_word_all_rejected.
  - intros w' H. pose proof (loop_eof _ _ _ H) as Hrej.
    rewrite (get_guess_word_all_rejected _ _ Hrej) in H. now injection H.
Qed.

Lemma accepted_lower line : accepted (Str.lower line) = accepted line.
Proof. unfold accepted. now rewrite lower_idempotent. Qed.

Lemma is_answer_lower line : is_answer (Str.lower line) = is_answer line.
Proof. unfold is_answer. now rewrite lower_idempotent. Qed.

Lemma loop_up_to_case lines1 : forall lines2 out,
  map Str.lower lines1 = map Str.lower lines2 ->
  same_up_to_case (get_guess_word_loop lines1 out)
                  (get_guess_word_loop lines2 out).
Proof.
  induction lines1 as [|l1 lines1 IH]; intros [|l2 lines2] out Heq;
    try discriminate.
  - reflexivity.
  - cbn [map] in Heq. injection Heq as Hl Hrest.
    assert (Hacc : accepted l1 = accepted l2)
      by (unfold accepted; now rewrite Hl).
    destruct (accepted l2) eqn:H2.
    + rewrite !loop_accepts, Hl by assumption. cbn. auto.
    + rewrite !loop_rejects by assumption.
      unfold reprompt. rewrite Hl. now apply IH.
Qed.

Lemma ask_loop_up_to_case q lines1 : forall lines2 out,
  map Str.lower lines1 = map Str.lower lines2 ->
  same_up_to_case (ask_user_yes_no_loop q lines1 out)
                  (ask_user_yes_no_loop q lines2 out).
Proof.
  induction lines1 as [|l1 lines1 IH]; intros [|l2 lines2] out Heq;
    try discriminate.
  - reflexivity.
  - cbn [map] in Heq. injection Heq as Hl Hrest.
    assert (Hans : is_answer l1 = is_answer l2)
      by (unfold is_answer; now rewrite Hl).
    destruct (is_answer l2) eqn:H2.
    + rewrite !ask_loop_answers, Hl by assumption. cbn. auto.
    + rewrite !ask_loop_rejects by assumption. now apply IH.
Qed.

(** X4. Both prompts are blind to case: two inputs whose lines have the
    same lowercase forms get the same answer (or the same [EOFError]) and
    the same messages, after the same number of lines. *)
Theorem prompts_ignore_case lines1 lines2 out :
  map Str.lower lines1 = map Str.lower lines2 ->
  same_up_to_case (get_guess_word (mkWorld lines1 out))
                  (get_guess_word (mkWorld lines2 out))
  /\ forall q,
       same_up_to_case (ask_user_yes_no q (mkWorld lines1 out))
                       (ask_user_yes_no q (mkWorld lines2 out)).
Proof.
  intros Heq. split.
  - now apply loop_up_to_case.
  - intros q. now apply ask_loop_up_to_case.
Qed.

Lemma prompts_ignore_case_witness :
  same_up_to_case (get_guess_word (mkWorld ["AB"; "Q"; "X"] []))
                  (get_guess_word (mkWorld ["ab"; "q"; "x"] []))
  /\ forall q,
       same_up_to_case (ask_user_yes_no q (mkWorld ["AB"; "Q"; "X"] []))
                       (ask_user_yes_no q (mkWorld ["ab"; "q"; "x"] [])).
Proof.
  apply (prompts_ignore_case ["AB"; "Q"; "X"] ["ab"; "q"; "x"] []).
  reflexivity.
Defined.

Lemma loop_output_grows lines : forall out letter w1,
  get_guess_word_loop lines out = Ok letter w1 ->
  exists more, stdout w1 = out ++ more.
Proof.
  induction lines as [|l lines IH]; intros out letter w1 H; [discriminate|].
  destruct (accepted l) eqn:Hl.
  - rewrite loop_accepts in H by assumption. injection H as _ <-. cbn. eauto.
  - rewrite loop_rejects in H by assumption.
    apply IH in H as [more H]. rewrite <- app_assoc in H. eauto.
Qed.

(** X5. Whatever [get_guess_word] returns is one alphabetic character that
    lowercasing leaves alone; the call has read at least one line and has
    only added to what was written. *)
Theorem get_guess_word_returns_letter w letter w1 :
  get_guess_word w = Ok letter w1 ->
  (exists c, letter = Str.single c /\ guessable c = true)
  /\ List.length (stdin w1) < List.length (stdin w)
  /\ exists more, stdout w1 = stdout w ++ more.
Proof.
  intros H. split; [|split].
  - apply loop_returns_letter in H as [[c [-> [Ha Hl]]] _].
    exists c. split; [reflexivity|]. unfold guessable.
    now rewrite Ha, Hl, Ascii.eqb_refl.
  - now apply loop_returns_letter in H.
  - eapply loop_output_grows, H.
Qed.

Lemma get_guess_word_returns_letter_witness :
  (exists c, "q" = Str.single c /\ guessable c = true)
  /\ List.length (@nil string) < List.length ["12"; "Q"]
  /\ exists more,
       [Prompt guess_prompt; Print msg_single;
        Prompt guess_prompt; System "clear"] = [] ++ more.
Proof.
  apply (get_guess_word_returns_letter (mkWorld ["12"; "Q"] []) "q"
           (mkWorld [] [Prompt guess_prompt; Print msg_single;
                        Prompt guess_prompt; System "clear"])).
  reflexivity.
Defined.

(** ** The name prompt *)

Lemma names_loop_skips n : forall rest out,
  get_player_names_loop (repeat EmptyString n ++ rest) out
  = get_player_names_loop rest
      (out ++ flat_map (fun _ => [Prompt name_prompt; Print msg_name])
                 (repeat EmptyString n)).
Proof.
  induction n as [|n IH]; intros rest out.
  - cbn. now rewrite app_nil_r.
  - cbn [repeat app get_player_names_loop flat_map]. rewrite IH.
    now rewrite <- !app_assoc.
Qed.

(** X6. [get_player_names] greets once, with the logo and the centred
    welcome line, and returns the first line that is not empty, exactly as
    typed: it is neither lowercased nor trimmed, so a name of blanks is a
    name.  Each empty line before it costs the prompt again and the
    name-required message. *)
Theorem get_player_names_first_nonempty assets n name rest out :
  name <> EmptyString ->
  get_player_names assets (mkWorld (repeat EmptyString n ++ name :: rest) out)
  = Ok name
       (mkWorld rest
          (out ++ [Print (hangman_logo assets); Print (center welcome 50)]
               ++ flat_map (fun _ => [Prompt name_prompt; Print msg_name])
                    (repeat EmptyString n)
               ++ [Prompt name_prompt])).
Proof.
  intros Hname. unfold get_player_names, greet_user, emit. cbn [stdin stdout].
  rewrite names_loop_skips. cbn [get_player_names_loop].
  destruct name as [|c name]; [contradiction|].
  now rewrite <- !app_assoc.
Qed.

Lemma get_player_names_first_nonempty_witness :
  get_player_names (mkAssets "LOGO" [] []) (mkWorld [""; ""; " Ann "; "x"] [])
  = Ok " Ann "
       (mkWorld ["x"]
          [Print "LOGO"; Print (center welcome 50);
           Prompt name_prompt; Print msg_name;
           Prompt name_prompt; Print msg_name; Prompt name_prompt]).
Proof.
  apply (get_player_names_first_nonempty (mkAssets "LOGO" [] []) 2 " Ann "
           ["x"] []).
  discriminate.
Defined.

Lemma names_loop_returns lines : forall out name w1,
  get_player_names_loop lines out = Ok name w1 ->
  name <> EmptyString
  /\ List.length (stdin w1) < List.length lines.
Proof.
  induction lines as [|l lines IH]; intros out name w1 H; [discriminate|].
  cbn [get_player_names_loop] in H. destruct l as [|c l].
  - apply IH in H as [Hn Hlen]. split; [assumption | cbn; lia].
  - injection H as <- <-. split; [discriminate | cbn; lia].
Qed.

(** ** The start of a round *)

Lemma choice_In seq r word : choice seq r = Some word -> In word seq.
Proof.
  unfold choice. destruct seq as [|x seq]; [discriminate|].
  apply nth_error_In.
Qed.

Lemma choice_nonempty seq r : seq <> [] -> exists word, choice seq r = Some word.
Proof.
  intros Hne. unfold choice. destruct seq as [|x seq]; [contradiction|].
  destruct (nth_error (x :: seq) (r mod List.length (x :: seq))) eqn:E.
  - eauto.
  - apply nth_error_None in E.
    pose proof (Nat.mod_upper_bound r (List.length (x :: seq))) as Hb.
    cbn [List.length] in *. lia.
Qed.

(** X7. A round starts from a name that is not empty, a word of
    [word_list] and two empty lists of letters, after at least one line was
    read.  With an empty [word_list] no round starts: [__init__] asks the
    name and then fails with [IndexError]; this is its only way to fail on
    an index. *)
Theorem init_starts_fresh assets r w :
  (forall self w1,
     Hangman__init__ assets r w = Returns self w1 ->
     player_name self <> EmptyString
     /\ In (chosen_word self) (word_list assets)
     /\ missed_letter self = [] /\ guessed_letter self = []
     /\ List.length (stdin w1) < List.length (stdin w))
  /\ ((exists w1, Hangman__init__ assets r w = Raises IndexError w1)
      <-> word_list assets = []
          /\ exists name w1, get_player_names assets w = Ok name w1).
Proof.
  unfold Hangman__init__, get_random_word. split.
  - intros self w1 H.
    destruct (get_player_names assets w) as [name w'|w'] eqn:Hn;
      [|discriminate].
    destruct (choice (word_list assets) r) as [word|] eqn:Hc; [|discriminate].
    injection H as <- <-. cbn.
    apply names_loop_returns in Hn as [Hne Hlen]. cbn in Hlen.
    apply choice_In in Hc. auto.
  - destruct (get_player_names assets w) as [name w'|w'] eqn:Hn.
    + destruct (word_list assets) as [|x l] eqn:Hl.
      * cbn. split; eauto.
      * destruct (choice_nonempty (x :: l) r) as [word ->]; [discriminate|].
        split; [intros [w1 H] | intros [H _]]; discriminate.
    + split; [intros [w1 H] | intros [_ [name [w1 H]]]]; discriminate.
Qed.

Lemma init_starts_fresh_witness :
  player_name (Hangman_init "ann" "dog") <> EmptyString
  /\ In (chosen_word (Hangman_init "ann" "dog")) ["cat"; "dog"]
  /\ missed_letter (Hangman_init "ann" "dog") = []
  /\ guessed_letter (Hangman_init "ann" "dog") = []
  /\ List.length ["c"] < List.length [""; "ann"; "c"].
Proof.
  apply (proj1 (init_starts_fresh (mkAssets "LOGO" [] ["cat"; "dog"]) 5
                  (mkWorld [""; "ann"; "c"] []))
           (Hangman_init "ann" "dog")
           (mkWorld ["c"]
              [Print "LOGO"; Print (center welcome 50);
               Prompt name_prompt; Print msg_name; Prompt name_prompt])).
  reflexivity.
Defined.

(** ** The masked word over a round *)

Lemma display_letters_get self i :
  String.get (2 * i) (display_letters self)
  = option_map (masked_char (guessed_letter self))
      (nth_error (Str.chars (chosen_word self)) i).
Proof.
  now rewrite display_letters_spaced, join_singles_get, nth_error_map.
Qed.

Lemma masked_char_grows hits hits' c :
  (forall x, In x hits -> In x hits') ->
  masked_char hits c <> "_"%char ->
  masked_char hits' c = masked_char hits c.
Proof.
  intros Hsub Hshown.
  destruct (masked_char_cases hits c) as [[E [H|H]]|[E _]];
    [| |contradiction]; rewrite E; unfold masked_char.
  - subst c. reflexivity.
  - apply Hsub, mem_In in H. rewrite H. now rewrite orb_true_r.
Qed.

Lemma check_letters_with_grows user_letter self :
  let self' := fst (check_letters_with user_letter self) in
  player_name self' = player_name self
  /\ chosen_word self' = chosen_word self
  /\ (forall x, In x (guessed_letter self) -> In x (guessed_letter self'))
  /\ (forall x, In x (missed_letter self) -> In x (missed_letter self')).
Proof.
  unfold check_letters_with.
  repeat match goal with
         | |- context [if ?b then _ else _] => destruct b
         end; cbn; repeat split; auto; intros x Hx; apply in_or_app; auto.
Qed.

(** X8. A call of [check_letters] never hides what the masked word
    already shows: a position that showed a character still shows it, so a
    round that was won stays won; and the call adds at most one miss. *)
Theorem check_letters_keeps_revealed self w self' w' :
  check_letters self w = Ok self' w' ->
  (forall i x,
     String.get (2 * i) (display_letters self) = Some x ->
     x <> "_"%char ->
     String.get (2 * i) (display_letters self') = Some x)
  /\ (check_game_won self = true -> check_game_won self' = true)
  /\ List.length (missed_letter self) <= List.length (missed_letter self')
  /\ List.length (missed_letter self') <= S (List.length (missed_letter self)).
Proof.
  intros H. pose proof (check_letters_appends _ _ _ _ H) as Happ.
  apply check_letters_inv in H as [l [w1 [_ ->]]].
  destruct (check_letters_with_grows l self) as [_ [Hw [Hg _]]].
  split; [|split].
  - intros i x. rewrite !display_letters_get, Hw.
    destruct (nth_error (Str.chars (chosen_word self)) i) as [c|];
      [|discriminate].
    cbn. intros E Hx. injection E as E. rewrite <- E in Hx |- *.
    now rewrite (masked_char_grows _ _ _ Hg Hx).
  - rewrite !check_game_won_eq, Hw, !negb_true_iff.
    rewrite <- !not_true_iff_false, !existsb_ascii_In, !in_map_iff.
    intros Hwon [c [E Hc]]. apply Hwon. exists c. split; [|assumption].
    destruct (ascii_dec (masked_char (guessed_letter self) c) "_")
      as [|Hne]; [assumption|].
    now rewrite <- (masked_char_grows _ _ _ Hg Hne).
  - destruct Happ as [[_ ->]|[[x [_ ->]]|[x [-> _]]]];
      rewrite ?length_app; cbn; lia.
Qed.

Lemma check_letters_keeps_revealed_witness :
  List.length ["q"] <= List.length ["q"; "z"]
  /\ List.length ["q"; "z"] <= S (List.length ["q"]).
Proof.
  apply (check_letters_keeps_revealed
           (mkHangman "ann" "a b" ["q"] ["b"; "a"]) (mkWorld ["z"] [])
           (mkHangman "ann" "a b" ["q"; "z"] ["b"; "a"])
           (mkWorld [] [Prompt guess_prompt; System "clear"])).
  reflexivity.
Defined.

(** ** Words that end a round at once, and words that never do *)

Lemma guessable_letter c : is_letter (Str.single c) -> guessable c = true.
Proof.
  intros [d [E [Ha Hl]]]. injection E as ->. unfold guessable.
  now rewrite Ha, Hl, Ascii.eqb_refl.
Qed.

(** X9. A word with a character that is neither a space nor a lowercase
    letter is never won: in no state of a round on it is [check_game_won]
    true, as the prompt cannot return that character. *)
Theorem odd_character_never_won name word gs self c :
  reached name word gs self ->
  In c (Str.chars word) -> c <> " "%char -> guessable c = false ->
  check_game_won self = false.
Proof.
  intros Hr Hc Hsp Hng. apply reached_invariant in Hr.
  apply not_true_iff_false. intros Hwon.
  pose proof (invariant_no_placeholder _ _ _ _ Hr) as Hnp.
  pose proof (proj1 (check_game_won_iff_hits self Hnp) Hwon) as Hall.
  rewrite (inv_word _ _ _ _ Hr) in Hall.
  specialize (Hall c Hc Hsp). rename Hall into Hwon'.
  apply (inv_guessed _ _ _ _ Hr) in Hwon' as [Hgs _].
  pose proof (inv_letters _ _ _ _ Hr) as Hl. rewrite Forall_forall in Hl.
  apply Hl, guessable_letter in Hgs. congruence.
Qed.

Lemma odd_character_never_won_witness :
  check_game_won (mkHangman "ann" "x-y" [] ["x"; "y"]) = false.
Proof.
  apply (odd_character_never_won "ann" "x-y" (([] ++ ["x"]) ++ ["y"])
           (mkHangman "ann" "x-y" [] ["x"; "y"]) "-"%char).
  - apply (reached_step "ann" "x-y" _ (mkHangman "ann" "x-y" [] ["x"])
             (mkWorld ["-"; "y"] []) "y"
             (mkWorld [] [Prompt guess_prompt; Print msg_alpha;
                          Prompt guess_prompt; System "clear"])
             _ (mkWorld [] [Prompt guess_prompt; Print msg_alpha;
                            Prompt guess_prompt; System "clear"]));
      [ | reflexivity | reflexivity ].
    apply (reached_step "ann" "x-y" _ (Hangman_init "ann" "x-y")
             (mkWorld ["x"] []) "x"
             (mkWorld [] [Prompt guess_prompt; System "clear"])
             _ (mkWorld [] [Prompt guess_prompt; System "clear"]));
      [ | reflexivity | reflexivity ].
    apply reached_init.
  - cbn. auto.
  - discriminate.
  - reflexivity.
Defined.

(** X10. A fresh round is already won exactly when its word has nothing
    but spaces, the empty word included: [end_of_game] is then true before
    any letter is asked for. *)
Theorem fresh_round_won_iff_blank name word :
  (check_game_won (Hangman_init name word) = true
   <-> forall c, In c (Str.chars word) -> c = " "%char)
  /\ (end_of_game (Hangman_init name word) = true
      <-> forall c, In c (Str.chars word) -> c = " "%char).
Proof.
  assert (Hwon : check_game_won (Hangman_init name word) = true
                 <-> forall c, In c (Str.chars word) -> c = " "%char).
  { rewrite check_game_won_iff_hits by (cbn; tauto). cbn. split.
    - intros H c Hc. destruct (ascii_dec c " ") as [|Hne]; [assumption|].
      destruct (H c Hc Hne).
    - intros H c Hc Hne. now apply H in Hc. }
  split; [exact Hwon|].
  rewrite end_of_game_eq, orb_true_iff, Hwon. cbn. intuition discriminate.
Qed.

Lemma chars_length s : List.length (Str.chars s) = String.length s.
Proof. unfold Str.chars. induction s; cbn; congruence. Qed.

(** X11. The masked word is as long as the word asks for, whatever was
    guessed: one place for each character and one space between two, so
    [2 * len(chosen_word) - 1] characters, and none for the empty word. *)
Theorem display_letters_length self :
  String.length (display_letters self)
  = 2 * String.length (chosen_word self) - 1.
Proof.
  rewrite display_letters_spaced, join_singles_length.
  now rewrite !length_map, chars_length.
Qed.

(** ** The two lists, exactly *)

Lemma first_guesses_In x gs : In x (first_guesses gs) <-> In x gs.
Proof.
  unfold first_guesses. now rewrite <- in_rev, nodup_In, <- in_rev.
Qed.

Lemma first_guesses_snoc gs x :
  first_guesses (gs ++ [x])
  = if in_dec string_dec x gs then first_guesses gs
    else first_guesses gs ++ [x].
Proof.
  unfold first_guesses. rewrite rev_app_distr. cbn [rev app nodup].
  destruct (in_dec string_dec x (rev gs)) as [Hin|Hnin],
           (in_dec string_dec x gs) as [Hin'|Hnin']; try reflexivity.
  - apply in_rev in Hin. contradiction.
  - apply in_rev in Hin'. contradiction.
Qed.

Lemma filter_snoc (f : string -> bool) gs x :
  filter f (gs ++ [x]) = if f x then filter f gs ++ [x] else filter f gs.
Proof.
  rewrite filter_app. cbn. destruct (f x); [reflexivity | apply app_nil_r].
Qed.

(** X12. In every state of a round, [guessed_letter] is the list of the
    distinct letters of the word that were guessed, in the order in which
    they were first guessed, and [missed_letter] is the same for the
    letters that are not in the word: this is what the status lines show. *)
Theorem lists_in_order_of_first_guess name word gs self :
  reached name word gs self ->
  guessed_letter self = first_guesses (filter (fun g => occurs g word) gs)
  /\ missed_letter self
     = first_guesses (filter (fun g => negb (occurs g word)) gs).
Proof.
  intros Hr. pose proof (reached_invariant _ _ _ _ Hr) as Hinv. revert Hinv.
  induction Hr as [|gs self w l w1 self' w' Hr IH Hget Hcheck]; intros Hinv'.
  - split; reflexivity.
  - specialize (IH (reached_invariant _ _ _ _ Hr)) as [IHg IHm].
    pose proof (inv_word _ _ _ _ (reached_invariant _ _ _ _ Hr)) as Hw.
    rewrite (check_letters_eq _ _ _ _ Hget) in Hcheck.
    injection Hcheck as <- _.
    destruct (get_guess_word_letter _ _ _ Hget) as [c [-> _]].
    rewrite !filter_snoc. cbn beta.
    destruct (occurs (Str.single c) word) eqn:Hocc; cbn [negb];
      rewrite first_guesses_snoc.
    + assert (Hnm : ~ In (Str.single c) (missed_letter self)).
      { rewrite IHm, first_guesses_In, filter_In, Hocc. cbn.
        intuition discriminate. }
      destruct (in_dec string_dec (Str.single c)
                  (filter (fun g => occurs g word) gs)) as [Hin|Hnin].
      * rewrite with_already
          by (left; now rewrite IHg, first_guesses_In).
        now split.
      * assert (Hng : ~ In (Str.single c) (guessed_letter self))
          by now rewrite IHg, first_guesses_In.
        rewrite with_new by assumption. rewrite Hw, Hocc.
        cbn [fst guessed_letter missed_letter]. split; congruence.
    + assert (Hng : ~ In (Str.single c) (guessed_letter self)).
      { rewrite IHg, first_guesses_In, filter_In, Hocc.
        intuition discriminate. }
      destruct (in_dec string_dec (Str.single c)
                  (filter (fun g => negb (occurs g word)) gs)) as [Hin|Hnin].
      * rewrite with_already
          by (right; now rewrite IHm, first_guesses_In).
        now split.
      * assert (Hnm : ~ In (Str.single c) (missed_letter self))
          by now rewrite IHm, first_guesses_In.
        rewrite with_new by assumption. rewrite Hw, Hocc.
        cbn [fst guessed_letter missed_letter]. split; congruence.
Qed.

Lemma lists_in_order_of_first_guess_witness :
  ["b"; "a"] = first_guesses (filter (fun g => occurs g "a b") ["b"; "q"; "a"; "b"])
  /\ ["q"]
     = first_guesses (filter (fun g => negb (occurs g "a b"))
                        ["b"; "q"; "a"; "b"]).
Proof.
  apply (lists_in_order_of_first_guess "ann" "a b"
           (((([] ++ ["b"]) ++ ["q"]) ++ ["a"]) ++ ["b"])
           (mkHangman "ann" "a b" ["q"] ["b"; "a"])).
  apply (reached_step "ann" "a b" _ (mkHangman "ann" "a b" ["q"] ["b"; "a"])
           (mkWorld ["B"] []) "b"
           (mkWorld [] [Prompt guess_prompt; System "clear"])
           _ (mkWorld [] [Prompt guess_prompt; System "clear";
                          Print msg_already]));
    [ | reflexivity | reflexivity ].
  apply (reached_step "ann" "a b" _ (mkHangman "ann" "a b" ["q"] ["b"])
           (mkWorld ["A"] []) "a"
           (mkWorld [] [Prompt guess_prompt; System "clear"])
           _ (mkWorld [] [Prompt guess_prompt; System "clear"]));
    [ | reflexivity | reflexivity ].
  apply (reached_step "ann" "a b" _ (mkHangman "ann" "a b" [] ["b"])
           (mkWorld ["q"] []) "q"
           (mkWorld [] [Prompt guess_prompt; System "clear"])
           _ (mkWorld [] [Prompt guess_prompt; System "clear"]));
    [ | reflexivity | reflexivity ].
  apply (reached_step "ann" "a b" _ (Hangman_init "ann" "a b")
           (mkWorld ["b"] []) "b"
           (mkWorld [] [Prompt guess_prompt; System "clear"])
           _ (mkWorld [] [Prompt guess_prompt; System "clear"]));
    [ | reflexivity | reflexivity ].
  apply reached_init.
Defined.

(** ** A round: [play_game] *)

Lemma display_game_status_returns assets self w w1 :
  display_game_status assets self w = Returns tt w1 ->
  exists stage,
    nth_error (stages assets) (List.length (missed_letter self)) = Some stage
    /\ w1 = mkWorld (stdin w) (stdout w ++ Print stage :: status_lines self).
Proof.
  unfold display_game_status.
  destruct (nth_error (stages assets) (List.length (missed_letter self)))
    as [stage|]; [|discriminate].
  intros H. injection H as <-. eauto.
Qed.

Lemma display_game_status_raises assets self w e w1 :
  display_game_status assets self w = Raises e w1 ->
  e = IndexError /\ w1 = w
  /\ List.length (stages assets) <= List.length (missed_letter self).
Proof.
  unfold display_game_status.
  destruct (nth_error (stages assets) (List.length (missed_letter self)))
    as [stage|] eqn:E; [discriminate|].
  intros H. injection H as <- <-. apply nth_error_None in E. auto.
Qed.

Lemma check_letters_consumes self w self' w' :
  check_letters self w = Ok self' w' ->
  List.length (stdin w') < List.length (stdin w).
Proof.
  unfold check_letters. destruct (get_guess_word w) as [l w1|] eqn:Hg;
    [|discriminate].
  destruct (check_letters_with l self). intros H. injection H as _ <-.
  cbn. now apply loop_returns_letter in Hg.
Qed.

Lemma check_letters_keeps_round self w self' w' :
  check_letters self w = Ok self' w' ->
  player_name self' = player_name self /\ chosen_word self' = chosen_word self.
Proof.
  intros H. apply check_letters_inv in H as [l [w1 [_ ->]]].
  destruct (check_letters_with_grows l self) as [Hn [Hw _]]. now split.
Qed.

Lemma check_game_won_ext a b :
  chosen_word a = chosen_word b -> guessed_letter a = guessed_letter b ->
  check_game_won a = check_game_won b.
Proof. intros Hw Hg. now rewrite !check_game_won_eq, Hw, Hg. Qed.

Lemma play_game_loop_enough assets : forall fuel hangman_game w,
  List.length (stdin w) < fuel ->
  exists o, play_game_loop assets fuel hangman_game w = Some o.
Proof.
  induction fuel as [|fuel IH]; intros self w Hfuel; [lia|].
  cbn [play_game_loop]. destruct (negb (end_of_game self)); [|eauto].
  destruct (display_game_status assets self (emit (System "clear") w))
    as [[] w1|e w1] eqn:Hd; [|eauto].
  apply display_game_status_returns in Hd as [stage [_ ->]].
  match goal with
  | |- context [check_letters self ?w1] =>
      destruct (check_letters self w1) as [self' w2|w2] eqn:Hc
  end; [|eauto].
  apply check_letters_consumes in Hc. cbn in Hc. apply IH. lia.
Qed.

Lemma play_game_loop_more_fuel assets : forall fuel fuel' hangman_game w o,
  play_game_loop assets fuel hangman_game w = Some o ->
  fuel <= fuel' ->
  play_game_loop assets fuel' hangman_game w = Some o.
Proof.
  induction fuel as [|fuel IH]; intros fuel' self w o H Hle; [discriminate|].
  destruct fuel' as [|fuel']; [lia|].
  cbn [play_game_loop] in *. destruct (negb (end_of_game self)); [|assumption].
  destruct (display_game_status assets self (emit (System "clear") w))
    as [[] w1|e w1]; [|assumption].
  destruct (check_letters self w1) as [self' w2|w2]; [|assumption].
  apply IH; [assumption | lia].
Qed.

Lemma play_game_some assets r w : exists o, play_game assets r w = Some o.
Proof.
  unfold play_game.
  destruct (Hangman__init__ assets r w) as [self w1|e w1]; [|eauto].
  destruct (play_game_loop_enough assets (S (List.length (stdin w1))) self w1)
    as [o ->]; [lia|].
  destruct o; eauto.
Qed.

(** X13. A round always ends: each turn of the loop of [play_game] reads
    at least one line, so counting one turn more than there are lines is
    enough, counting more changes nothing, and [play_game] itself returns
    or raises on every input. *)
Theorem play_game_ends assets :
  (forall fuel hangman_game w,
     List.length (stdin w) < fuel ->
     exists o,
       play_game_loop assets fuel hangman_game w = Some o
       /\ play_game_loop assets (S (List.length (stdin w))) hangman_game w
          = Some o)
  /\ (forall r w, exists o, play_game assets r w = Some o).
Proof.
  split.
  - intros fuel self w Hfuel.
    destruct (play_game_loop_enough assets (S (List.length (stdin w))) self w)
      as [o Ho]; [lia|].
    exists o. split; [|assumption].
    eapply play_game_loop_more_fuel; [eassumption | lia].
  - intros r w. apply play_game_some.
Qed.

Lemma end_of_game_false self :
  end_of_game self = false ->
  check_game_won self = false /\ List.length (missed_letter self) <> 6.
Proof.
  rewrite end_of_game_eq, orb_false_iff, Nat.eqb_neq. tauto.
Qed.

Lemma step_within_six self w self' w' :
  end_of_game self = false -> within_six self ->
  check_letters self w = Ok self' w' ->
  within_six self'.
Proof.
  intros Hend [Hle _] Hc. apply end_of_game_false in Hend as [Hwon Hne].
  destruct (check_letters_keeps_round _ _ _ _ Hc) as [_ Hw].
  destruct (check_letters_appends _ _ _ _ Hc)
    as [[Hg Hm]|[[x [Hg Hm]]|[x [Hm Hg]]]]; unfold within_six; rewrite Hm.
  - rewrite (check_game_won_ext self' self Hw Hg). split; [lia | congruence].
  - split; [lia | intros _; assumption].
  - rewrite (check_game_won_ext self' self Hw Hg), length_app. cbn.
    split; [lia | congruence].
Qed.

Lemma play_game_loop_returns assets : forall fuel hangman_game w final w',
  play_game_loop assets fuel hangman_game w = Some (Returns final w') ->
  within_six hangman_game ->
  end_of_game final = true /\ within_six final
  /\ player_name final = player_name hangman_game
  /\ chosen_word final = chosen_word hangman_game
  /\ List.length (stdin w') <= List.length (stdin w)
  /\ exists more, stdout w' = stdout w ++ more.
Proof.
  induction fuel as [|fuel IH]; intros self w final w' H Hin; [discriminate|].
  cbn [play_game_loop] in H. destruct (end_of_game self) eqn:Hend; cbn in H.
  - injection H as <- <-.
    split; [assumption|]. split; [assumption|]. split; [reflexivity|].
    split; [reflexivity|]. split; [lia|].
    exists []. now rewrite app_nil_r.
  - destruct (display_game_status assets self (emit (System "clear") w))
      as [[] w1|e w1] eqn:Hd; [|discriminate].
    apply display_game_status_returns in Hd as [stage [_ ->]].
    match type of H with
    | context [check_letters self ?w1] =>
        destruct (check_letters self w1) as [self' w2|w2] eqn:Hc
    end; [|discriminate].
    pose proof (step_within_six _ _ _ _ Hend Hin Hc) as Hin'.
    pose proof (check_letters_consumes _ _ _ _ Hc) as Hlen.
    destruct (check_letters_keeps_round _ _ _ _ Hc) as [Hn Hw].
    assert (Hout : exists more, stdout w2 = stdout w ++ more).
    { unfold check_letters in Hc.
      match type of Hc with
      | context [get_guess_word ?w1] =>
          destruct (get_guess_word w1) as [l w3|] eqn:Hg
      end; [|discriminate].
      destruct (check_letters_with l self) as [s printed].
      injection Hc as _ <-. apply loop_output_grows in Hg as [more Hg].
      cbn in Hg |- *. rewrite Hg, <- !app_assoc. eauto. }
    destruct (IH _ _ _ _ H Hin') as [He [Hf [Hn' [Hw' [Hlen' [more Hmore]]]]]].
    cbn in Hlen.
    split; [assumption|]. split; [assumption|]. split; [congruence|].
    split; [congruence|]. split; [lia|].
    destruct Hout as [more0 Hout]. rewrite Hmore, Hout, <- app_assoc. eauto.
Qed.

Lemma loop_eof_stdin lines : forall out w',
  get_guess_word_loop lines out = EOFError w' -> stdin w' = [].
Proof.
  induction lines as [|l lines IH]; intros out w' H.
  - now injection H as <-.
  - cbn [get_guess_word_loop] in H.
    destruct (negb (String.length (Str.lower l) =? 1)); [eapply IH, H|].
    destruct (negb (Str.isalpha (Str.lower l))); [eapply IH, H|discriminate].
Qed.

Lemma check_letters_eof self w w' :
  check_letters self w = EOFError w' -> stdin w' = [].
Proof.
  unfold check_letters. destruct (get_guess_word w) as [l w1|w1] eqn:Hg.
  - destruct (check_letters_with l self). discriminate.
  - intros H. injection H as <-. eapply loop_eof_stdin, Hg.
Qed.

Lemma play_game_loop_raises assets : forall fuel hangman_game w e w',
  play_game_loop assets fuel hangman_game w = Some (Raises e w') ->
  within_six hangman_game ->
  7 <= List.length (stages assets) ->
  e = EndOfInput /\ stdin w' = [].
Proof.
  induction fuel as [|fuel IH]; intros self w e w' H Hin Hst; [discriminate|].
  cbn [play_game_loop] in H. destruct (end_of_game self) eqn:Hend; cbn in H;
    [discriminate|].
  destruct (display_game_status assets self (emit (System "clear") w))
    as [[] w1|e1 w1] eqn:Hd.
  - apply display_game_status_returns in Hd as [stage [_ ->]].
    match type of H with
    | context [check_letters self ?w1] =>
        destruct (check_letters self w1) as [self' w2|w2] eqn:Hc
    end.
    + apply (IH _ _ _ _ H); [|assumption].
      eapply step_within_six; eassumption.
    + injection H as <- <-. split; [reflexivity|].
      eapply check_letters_eof, Hc.
  - injection H as <- <-.
    apply display_game_status_raises in Hd as [_ [_ Hlen]].
    destruct Hin as [Hle _]. lia.
Qed.

Lemma within_six_few self :
  List.length (missed_letter self) < 6 -> within_six self.
Proof. intros H. split; lia. Qed.

Lemma within_six_won_iff self :
  within_six self -> end_of_game self = true ->
  check_game_won self = true <-> List.length (missed_letter self) <> 6.
Proof.
  intros [_ Hw] Hend. rewrite end_of_game_eq, orb_true_iff, Nat.eqb_eq in Hend.
  split; [assumption|]. intros Hne. destruct Hend; [assumption | contradiction].
Qed.

(** X14. When the loop of [play_game] is left, the round is over and it
    is either won or lost, never both: [missed_letter] holds at most six
    letters, and exactly six if and only if the word was not guessed.  The
    name and the word are those the round started with. *)
Theorem play_game_loop_final assets fuel hangman_game w final w' :
  play_game_loop assets fuel hangman_game w = Some (Returns final w') ->
  List.length (missed_letter hangman_game) < 6 ->
  end_of_game final = true
  /\ List.length (missed_letter final) <= 6
  /\ (check_game_won final = true <-> List.length (missed_letter final) <> 6)
  /\ player_name final = player_name hangman_game
  /\ chosen_word final = chosen_word hangman_game.
Proof.
  intros H Hfew.
  destruct (play_game_loop_returns _ _ _ _ _ _ H (within_six_few _ Hfew))
    as [Hend [Hin [Hn [Hw _]]]].
  split; [assumption|]. split; [apply Hin|].
  split; [now apply within_six_won_iff|]. now split.
Qed.

Lemma play_game_loop_final_witness :
  end_of_game (mkHangman "ann" "ab" ["q"; "w"; "e"; "r"; "t"; "y"] ["a"]) = true
  /\ List.length ["q"; "w"; "e"; "r"; "t"; "y"] <= 6
  /\ (check_game_won
        (mkHangman "ann" "ab" ["q"; "w"; "e"; "r"; "t"; "y"] ["a"]) = true
      <-> List.length ["q"; "w"; "e"; "r"; "t"; "y"] <> 6)
  /\ "ann" = "ann" /\ "ab" = "ab".
Proof.
  apply (play_game_loop_final
           (mkAssets "LOGO" ["0"; "1"; "2"; "3"; "4"; "5"; "6"] ["ab"])
           9 (Hangman_init "ann" "ab")
           (mkWorld ["q"; "w"; "a"; "e"; "r"; "t"; "y"; "b"] [])
           (mkHangman "ann" "ab" ["q"; "w"; "e"; "r"; "t"; "y"] ["a"])
           (snd (match play_game_loop
                         (mkAssets "LOGO" ["0"; "1"; "2"; "3"; "4"; "5"; "6"]
                            ["ab"])
                         9 (Hangman_init "ann" "ab")
                         (mkWorld ["q"; "w"; "a"; "e"; "r"; "t"; "y"; "b"] [])
                 with
                 | Some (Returns s w) => (s, w)
                 | _ => (Hangman_init "" "", mkWorld [] [])
                 end))).
  - vm_compute. reflexivity.
  - cbn. lia.
Defined.

Lemma names_loop_eof_stdin lines : forall out w',
  get_player_names_loop lines out = EOFError w' -> stdin w' = [].
Proof.
  induction lines as [|l lines IH]; intros out w' H.
  - now injection H as <-.
  - cbn [get_player_names_loop] in H. destruct l; [eapply IH, H|discriminate].
Qed.

Lemma init_returns assets r w self w1 :
  Hangman__init__ assets r w = Returns self w1 ->
  exists name word,
    self = Hangman_init name word /\ name <> EmptyString
    /\ In word (word_list assets)
    /\ List.length (stdin w1) < List.length (stdin w).
Proof.
  unfold Hangman__init__, get_random_word.
  destruct (get_player_names assets w) as [name w'|w'] eqn:Hn; [|discriminate].
  destruct (choice (word_list assets) r) as [word|] eqn:Hc; [|discriminate].
  intros H. injection H as <- <-. exists name, word.
  apply names_loop_returns in Hn as [Hne Hlen]. apply choice_In in Hc.
  cbn in Hlen. auto.
Qed.

Lemma init_raises assets r w e w1 :
  Hangman__init__ assets r w = Raises e w1 ->
  e = EndOfInput /\ stdin w1 = []
  \/ e = IndexError /\ word_list assets = [].
Proof.
  unfold Hangman__init__, get_random_word.
  destruct (get_player_names assets w) as [name w'|w'] eqn:Hn.
  - destruct (word_list assets) as [|x l] eqn:Hl.
    + cbn. intros H. injection H as <- _. now right.
    + destruct (choice_nonempty (x :: l) r) as [word ->]; [discriminate|].
      discriminate.
  - intros H. injection H as <- <-. left. split; [reflexivity|].
    eapply names_loop_eof_stdin, Hn.
Qed.

Lemma within_six_fresh name word : within_six (Hangman_init name word).
Proof. apply within_six_few. cbn. lia. Qed.

Lemma play_game_raises assets r w e w1 :
  7 <= List.length (stages assets) ->
  word_list assets <> [] ->
  play_game assets r w = Some (Raises e w1) ->
  e = EndOfInput /\ stdin w1 = [].
Proof.
  intros Hst Hwl. unfold play_game.
  destruct (Hangman__init__ assets r w) as [self w0|e0 w0] eqn:Hi.
  - apply init_returns in Hi as [name [word [-> _]]].
    destruct (play_game_loop assets (S (List.length (stdin w0)))
                (Hangman_init name word) w0) as [[final w2|e2 w2]|] eqn:Hl;
      [| |discriminate].
    + destruct (play_game_loop_returns _ _ _ _ _ _ Hl (within_six_fresh _ _))
        as [_ [[Hle _] _]].
      unfold play_game_end.
      destruct (display_game_status assets final w2) as [[] w3|e3 w3] eqn:Hd;
        [discriminate|].
      apply display_game_status_raises in Hd as [_ [_ Hlen]]. lia.
    + intros H. injection H as <- <-.
      eapply play_game_loop_raises; [eassumption | apply within_six_fresh
                                    | assumption].
  - intros H. injection H as <- <-.
    apply init_raises in Hi as [Hi|[_ Hi]]; [assumption | contradiction].
Qed.


(** X15. With at least seven stages and a word list that is not empty,
    a round can fail in one way only: the input ends while a prompt waits.
    The six-miss test keeps [stages[len(missed_letter)]] within the seven
    stages, so [display_game_status] never raises [IndexError]. *)
Theorem play_game_fails_only_at_eof assets r w e w1 :
  7 <= List.length (stages assets) ->
  word_list assets <> [] ->
  play_game assets r w = Some (Raises e w1) ->
  e = EndOfInput /\ stdin w1 = [].
Proof. apply play_game_raises. Qed.

Lemma play_game_fails_only_at_eof_witness :
  EndOfInput = EndOfInput /\ @nil string = [].
Proof.
  apply (play_game_fails_only_at_eof
           (mkAssets "LOGO" ["0"; "1"; "2"; "3"; "4"; "5"; "6"] ["ab"]) 0
           (mkWorld ["ann"; "a"] []) EndOfInput
           (match play_game
                    (mkAssets "LOGO" ["0"; "1"; "2"; "3"; "4"; "5"; "6"] ["ab"])
                    0 (mkWorld ["ann"; "a"] [])
            with
            | Some (Raises _ w) => w
            | _ => mkWorld ["unexpected"] []
            end)).
  - cbn. lia.
  - discriminate.
  - vm_compute. reflexivity.
Defined.

Lemma play_game_returns assets r w w' :
  play_game assets r w = Some (Returns tt w') ->
  exists name word final w2 stage,
    name <> EmptyString /\ In word (word_list assets)
    /\ player_name final = name /\ chosen_word final = word
    /\ end_of_game final = true /\ within_six final
    /\ nth_error (stages assets) (List.length (missed_letter final))
       = Some stage
    /\ List.length (stdin w2) < List.length (stdin w)
    /\ w' = print_game_result final
              (mkWorld (stdin w2)
                 (stdout w2 ++ Print stage :: status_lines final)).
Proof.
  unfold play_game.
  destruct (Hangman__init__ assets r w) as [self w0|e0 w0] eqn:Hi;
    [|discriminate].
  apply init_returns in Hi as [name [word [-> [Hne [Hin Hlen]]]]].
  destruct (play_game_loop assets (S (List.length (stdin w0)))
              (Hangman_init name word) w0) as [[final w2|e2 w2]|] eqn:Hl;
    [|discriminate|discriminate].
  destruct (play_game_loop_returns _ _ _ _ _ _ Hl (within_six_fresh _ _))
    as [Hend [Hsix [Hn [Hw [Hlen' _]]]]].
  unfold play_game_end.
  destruct (display_game_status assets final w2) as [[] w3|e3 w3] eqn:Hd;
    [|discriminate].
  apply display_game_status_returns in Hd as [stage [Hst ->]].
  intros H. injection H as <-.
  exists name, word, final, w2, stage. cbn in Hn, Hw.
  repeat (split; [first [assumption | lia]|]). reflexivity.
Qed.

(** X16. A round that returns has ended with the last status, the verdict
    and the word: the stage shown is the one for the number of misses, the
    verdict is the lost message exactly when six letters were missed and
    the congratulation otherwise, and the word revealed is one of
    [word_list]. *)
Theorem play_game_last_words assets r w w' :
  play_game assets r w = Some (Returns tt w') ->
  exists final stage before,
    stdout w'
    = before ++ Print stage :: status_lines final
      ++ [Print (if List.length (missed_letter final) =? 6
                 then msg_lost (player_name final)
                 else msg_won (player_name final));
          Print (msg_word (chosen_word final))]
    /\ nth_error (stages assets) (List.length (missed_letter final))
       = Some stage
    /\ end_of_game final = true
    /\ In (chosen_word final) (word_list assets)
    /\ player_name final <> EmptyString.
Proof.
  intros H. apply play_game_returns in H
    as [name [word [final [w2 [stage
         [Hne [Hin [Hn [Hw [Hend [Hsix [Hst [_ ->]]]]]]]]]]]]].
  exists final, stage, (stdout w2).
  split; [|rewrite Hn, Hw; auto].
  pose proof (within_six_won_iff _ Hsix Hend) as Hwon.
  unfold print_game_result, emit. cbn [stdin stdout].
  destruct (List.length (missed_letter final) =? 6) eqn:E.
  - apply Nat.eqb_eq in E.
    destruct (check_game_won final);
      [exfalso; exact (proj1 Hwon eq_refl E)|].
    cbn [stdout]. now rewrite <- !app_assoc.
  - apply Nat.eqb_neq in E. rewrite (proj2 Hwon E).
    cbn [stdout]. now rewrite <- !app_assoc.
Qed.

Lemma play_game_last_words_witness :
  exists final stage before,
    stdout
      (match play_game
               (mkAssets "LOGO" ["0"; "1"; "2"; "3"; "4"; "5"; "6"] ["ab"])
               0 (mkWorld ["ann"; "q"; "w"; "a"; "e"; "r"; "t"; "y"; "b"] [])
       with
       | Some (Returns _ w) => w
       | _ => mkWorld [] []
       end)
    = before ++ Print stage :: status_lines final
      ++ [Print (if List.length (missed_letter final) =? 6
                 then msg_lost (player_name final)
                 else msg_won (player_name final));
          Print (msg_word (chosen_word final))]
    /\ nth_error ["0"; "1"; "2"; "3"; "4"; "5"; "6"]
         (List.length (missed_letter final))
       = Some stage
    /\ end_of_game final = true
    /\ In (chosen_word final) ["ab"]
    /\ player_name final <> EmptyString.
Proof.
  apply (play_game_last_words
           (mkAssets "LOGO" ["0"; "1"; "2"; "3"; "4"; "5"; "6"] ["ab"])
           0 (mkWorld ["ann"; "q"; "w"; "a"; "e"; "r"; "t"; "y"; "b"] [])).
  vm_compute. reflexivity.
Defined.

(** ** The program: [main] *)

Lemma ask_loop_returns q lines : forall out b w',
  ask_user_yes_no_loop q lines out = Ok b w' ->
  exists rejected line,
    lines = rejected ++ line :: stdin w'
    /\ is_answer line = true
    /\ b = Str.mem (Str.lower line) choice_yes
    /\ stdout w' = out ++ invalid_round_trace q rejected ++ [Prompt q].
Proof.
  induction lines as [|l lines IH]; intros out b w' H; [discriminate|].
  destruct (is_answer l) eqn:Hl.
  - rewrite ask_loop_answers in H by assumption. injection H as <- <-.
    exists [], l. cbn. auto.
  - rewrite ask_loop_rejects in H by assumption.
    apply IH in H as [rejected [line [-> [Ha [Hb Hout]]]]].
    exists (l :: rejected), line. cbn [app]. repeat split; trivial.
    rewrite Hout. unfold invalid_round_trace. cbn [flat_map].
    now rewrite <- !app_assoc.
Qed.

Lemma ask_loop_eof_stdin q lines : forall out w',
  ask_user_yes_no_loop q lines out = EOFError w' -> stdin w' = [].
Proof.
  intros out w' H. pose proof (ask_loop_eof _ _ _ _ H) as Hrej.
  rewrite (ask_loop_all_rejected _ _ _ Hrej) in H. now injection H as <-.
Qed.

Lemma print_game_result_stdin self w : stdin (print_game_result self w) = stdin w.
Proof. unfold print_game_result. now destruct (check_game_won self). Qed.

Lemma main_loop_enough assets draws : forall fuel round w,
  List.length (stdin w) < fuel ->
  exists o, main_loop assets draws fuel round w = Some o.
Proof.
  induction fuel as [|fuel IH]; intros round w Hfuel; [lia|].
  cbn [main_loop].
  destruct (play_game assets (draws round) (emit (System "clear") w))
    as [[[] w1|e w1]|] eqn:Hp.
  - apply play_game_returns in Hp
      as [_ [_ [final [w2 [stage [_ [_ [_ [_ [_ [_ [_ [Hlen ->]]]]]]]]]]]]].
    unfold should_play_again.
    match goal with
    | |- context [ask_user_yes_no ?q ?w1] =>
        destruct (ask_user_yes_no q w1) as [again w3|w3] eqn:Ha
    end; [|eauto].
    destruct (negb again); [eauto|].
    apply ask_loop_returns in Ha as [rejected [line [Hlines _]]].
    rewrite print_game_result_stdin in Hlines. cbn [stdin] in Hlines, Hlen.
    apply IH. rewrite Hlines, length_app in Hlen. cbn in Hlen. lia.
  - eauto.
  - destruct (play_game_some assets (draws round)
                (emit (System "clear") w)) as [o Ho]. congruence.
Qed.

Lemma loop_suffix lines : forall out letter w1,
  get_guess_word_loop lines out = Ok letter w1 ->
  exists read, lines = read ++ stdin w1.
Proof.
  induction lines as [|l lines IH]; intros out letter w1 H; [discriminate|].
  destruct (accepted l) eqn:Hl.
  - rewrite loop_accepts in H by assumption. injection H as _ <-.
    now exists [l].
  - rewrite loop_rejects in H by assumption.
    apply IH in H as [read ->]. now exists (l :: read).
Qed.

Lemma check_letters_suffix self w self' w' :
  check_letters self w = Ok self' w' ->
  exists read, stdin w = read ++ stdin w'.
Proof.
  unfold check_letters. destruct (get_guess_word w) as [l w1|] eqn:Hg;
    [|discriminate].
  destruct (check_letters_with l self). intros H. injection H as _ <-.
  cbn. eapply loop_suffix, Hg.
Qed.

Lemma play_game_loop_suffix assets : forall fuel hangman_game w final w',
  play_game_loop assets fuel hangman_game w = Some (Returns final w') ->
  exists read, stdin w = read ++ stdin w'.
Proof.
  induction fuel as [|fuel IH]; intros self w final w' H; [discriminate|].
  cbn [play_game_loop] in H. destruct (negb (end_of_game self)).
  - destruct (display_game_status assets self (emit (System "clear") w))
      as [[] w1|e w1] eqn:Hd; [|discriminate].
    apply display_game_status_returns in Hd as [stage [_ ->]].
    match type of H with
    | context [check_letters self ?w1] =>
        destruct (check_letters self w1) as [self' w2|w2] eqn:Hc
    end; [|discriminate].
    apply check_letters_suffix in Hc as [read1 Hr1].
    apply IH in H as [read2 Hr2]. cbn in Hr1.
    exists (read1 ++ read2). now rewrite Hr1, Hr2, app_assoc.
  - injection H as _ <-. now exists [].
Qed.

Lemma names_loop_suffix lines : forall out name w1,
  get_player_names_loop lines out = Ok name w1 ->
  exists read, lines = read ++ stdin w1.
Proof.
  induction lines as [|l lines IH]; intros out name w1 H; [discriminate|].
  cbn [get_player_names_loop] in H. destruct l as [|c l].
  - apply IH in H as [read ->]. now exists (EmptyString :: read).
  - injection H as _ <-. now exists [String c l].
Qed.

Lemma play_game_suffix assets r w w' :
  play_game assets r w = Some (Returns tt w') ->
  exists read, stdin w = read ++ stdin w'.
Proof.
  unfold play_game, Hangman__init__.
  destruct (get_player_names assets w) as [name w0|w0] eqn:Hn; [|discriminate].
  destruct (get_random_word assets r) as [word|]; [|discriminate].
  destruct (play_game_loop assets (S (List.length (stdin w0)))
              (Hangman_init name word) w0) as [[final w2|e2 w2]|] eqn:Hl;
    [|discriminate|discriminate].
  unfold play_game_end.
  destruct (display_game_status assets final w2) as [[] w3|e3 w3] eqn:Hd;
    [|discriminate].
  apply display_game_status_returns in Hd as [stage [_ ->]].
  intros H. injection H as <-. rewrite print_game_result_stdin. cbn [stdin].
  apply names_loop_suffix in Hn as [read1 Hr1]. cbn in Hr1.
  apply play_game_loop_suffix in Hl as [read2 Hr2].
  exists (read1 ++ read2). now rewrite Hr1, Hr2, app_assoc.
Qed.

Lemma answer_no line :
  is_answer line = true -> Str.mem (Str.lower line) choice_yes = false ->
  Str.mem (Str.lower line) choice_no = true.
Proof. unfold is_answer. intros H Hy. now rewrite Hy in H. Qed.

Lemma main_loop_returns assets draws : forall fuel round w w',
  main_loop assets draws fuel round w = Some (Returns tt w') ->
  exists read line before,
    stdin w = read ++ line :: stdin w'
    /\ Str.mem (Str.lower line) choice_no = true
    /\ stdout w' = before ++ [Prompt again_question].
Proof.
  induction fuel as [|fuel IH]; intros round w w' H; [discriminate|].
  cbn [main_loop] in H.
  destruct (play_game assets (draws round) (emit (System "clear") w))
    as [[[] w1|e w1]|] eqn:Hp; [|discriminate|discriminate].
  apply play_game_suffix in Hp as [read1 Hr1]. cbn in Hr1.
  unfold should_play_again, ask_user_yes_no in H.
  destruct (ask_user_yes_no_loop again_question (stdin w1) (stdout w1))
    as [again w2|w2] eqn:Ha; [|discriminate].
  apply ask_loop_returns in Ha as [rejected [line [Hr2 [Hans [Hb Hout]]]]].
  destruct again; cbn [negb] in H.
  - apply IH in H as [read3 [line3 [before [Hr3 [Hno Hout3]]]]].
    exists (read1 ++ rejected ++ line :: read3), line3, before.
    split; [|now split].
    rewrite Hr1, Hr2, Hr3, <- !app_assoc. reflexivity.
  - injection H as <-.
    exists (read1 ++ rejected), line,
      (stdout w1 ++ invalid_round_trace again_question rejected).
    split; [|split].
    + now rewrite Hr1, Hr2, <- app_assoc.
    + apply answer_no; [assumption | now symmetry].
    + now rewrite Hout, app_assoc.
Qed.

Lemma main_loop_raises assets draws : forall fuel round w e w',
  7 <= List.length (stages assets) ->
  word_list assets <> [] ->
  main_loop assets draws fuel round w = Some (Raises e w') ->
  e = EndOfInput /\ stdin w' = [].
Proof.
  induction fuel as [|fuel IH]; intros round w e w' Hst Hwl H; [discriminate|].
  cbn [main_loop] in H.
  destruct (play_game assets (draws round) (emit (System "clear") w))
    as [[[] w1|e1 w1]|] eqn:Hp; [| |discriminate].
  - unfold should_play_again, ask_user_yes_no in H.
    destruct (ask_user_yes_no_loop again_question (stdin w1) (stdout w1))
      as [again w2|w2] eqn:Ha.
    + destruct (negb again); [discriminate|]. eapply IH; eassumption.
    + injection H as <- <-. split; [reflexivity|].
      eapply ask_loop_eof_stdin, Ha.
  - injection H as <- <-. eapply play_game_raises; eassumption.
Qed.

(** X17. The program always ends: every round but the last reads a name
    and an answer, so [main] returns or raises on every input, whatever
    the generator draws. *)
Theorem main_ends assets draws w :
  exists o, main assets draws w = Some o.
Proof.
  unfold main.
  destruct (main_loop_enough assets draws (S (List.length (stdin w))) 0 w)
    as [o ->]; [lia|].
  destruct o; eauto.
Qed.

(** X18. [main] returns only when the player declines: the last line it
    read answers the play-again question with [no] or [n], in any case;
    nothing after that line is read, and the last things written are that
    question and the exit message. *)
Theorem main_returns_after_no assets draws w w' :
  main assets draws w = Some (Returns tt w') ->
  exists read line before,
    stdin w = read ++ line :: stdin w'
    /\ Str.mem (Str.lower line) choice_no = true
    /\ stdout w' = before ++ [Prompt again_question; Print msg_exit].
Proof.
  unfold main.
  destruct (main_loop assets draws (S (List.length (stdin w))) 0 w)
    as [[[] w1|e w1]|] eqn:Hm; [|discriminate|discriminate].
  intros H. injection H as <-.
  apply main_loop_returns in Hm as [read [line [before [Hr [Hno Hout]]]]].
  exists read, line, before. cbn. rewrite Hout, <- app_assoc. auto.
Qed.

Lemma main_returns_after_no_witness :
  exists read line before,
    ["ann"; "a"; "b"; "maybe"; "N"; "later"]
    = read ++ line :: ["later"]
    /\ Str.mem (Str.lower line) choice_no = true
    /\ stdout
         (match main (mkAssets "LOGO" ["0"] ["ab"]) (fun n => n)
                  (mkWorld ["ann"; "a"; "b"; "maybe"; "N"; "later"] [])
          with
          | Some (Returns _ w) => w
          | _ => mkWorld [] []
          end)
       = before ++ [Prompt again_question; Print msg_exit].
Proof.
  apply (main_returns_after_no (mkAssets "LOGO" ["0"] ["ab"]) (fun n => n)
           (mkWorld ["ann"; "a"; "b"; "maybe"; "N"; "later"] [])
           (match main (mkAssets "LOGO" ["0"] ["ab"]) (fun n => n)
                    (mkWorld ["ann"; "a"; "b"; "maybe"; "N"; "later"] [])
            with
            | Some (Returns _ w) => w
            | _ => mkWorld [] []
            end)).
  vm_compute. reflexivity.
Defined.

(** X19. With at least seven stages and a word list that is not empty,
    the whole program fails in one way only, at the end of the input:
    whatever is typed, no call raises [IndexError]. *)
Theorem main_fails_only_at_eof assets draws w e w1 :
  7 <= List.length (stages assets) ->
  word_list assets <> [] ->
  main assets draws w = Some (Raises e w1) ->
  e = EndOfInput /\ stdin w1 = [].
Proof.
  intros Hst Hwl. unfold main.
  destruct (main_loop assets draws (S (List.length (stdin w))) 0 w)
    as [[[] w2|e2 w2]|] eqn:Hm; [discriminate| |discriminate].
  intros H. injection H as <- <-. eapply main_loop_raises; eassumption.
Qed.

Lemma main_fails_only_at_eof_witness :
  EndOfInput = EndOfInput /\ @nil string = [].
Proof.
  apply (main_fails_only_at_eof
           (mkAssets "LOGO" ["0"; "1"; "2"; "3"; "4"; "5"; "6"] ["ab"])
           (fun n => n) (mkWorld ["ann"; "a"; "b"; "y"; "bob"; "z"] [])
           EndOfInput
           (match main
                    (mkAssets "LOGO" ["0"; "1"; "2"; "3"; "4"; "5"; "6"] ["ab"])
                    (fun n => n) (mkWorld ["ann"; "a"; "b"; "y"; "bob"; "z"] [])
            with
            | Some (Raises _ w) => w
            | _ => mkWorld ["unexpected"] []
            end)).
  - cbn. lia.
  - discriminate.
  - vm_compute. reflexivity.
Defined.

(** ** Whole rounds *)

Lemma init_typed assets r name word lines out :
  name <> EmptyString ->
  get_random_word assets r = Some word ->
  Hangman__init__ assets r (mkWorld (name :: lines) out)
  = Returns (Hangman_init name word)
      (mkWorld lines
         (out ++ [Print (hangman_logo assets); Print (center welcome 50);
                  Prompt name_prompt])).
Proof.
  intros Hname Hword. unfold Hangman__init__, get_player_names, greet_user, emit.
  cbn [stdin stdout get_player_names_loop].
  destruct name as [|c name]; [contradiction|].
  rewrite Hword. now rewrite <- !app_assoc.
Qed.

Lemma letter_not_space c : is_letter (Str.single c) -> c <> " "%char.
Proof.
  intros [d [E [Ha _]]] ->. injection E as <-. discriminate Ha.
Qed.

Lemma play_game_turn assets fuel self g lines out stage :
  end_of_game self = false ->
  nth_error (stages assets) (List.length (missed_letter self)) = Some stage ->
  is_letter g ->
  exists out',
    play_game_loop assets (S fuel) self (mkWorld (g :: lines) out)
    = play_game_loop assets fuel (fst (check_letters_with g self))
        (mkWorld lines out').
Proof.
  intros Hend Hst Hg. cbn [play_game_loop]. rewrite Hend. cbn [negb].
  unfold display_game_status. rewrite Hst. unfold emit. cbn [stdin stdout].
  rewrite check_letters_typed by assumption. eauto.
Qed.

Lemma winning_turns assets name word stage rest : forall gs history self fuel out,
  nth_error (stages assets) 0 = Some stage ->
  round_invariant name word history self ->
  missed_letter self = [] ->
  Forall is_letter gs ->
  (forall g, In g gs -> occurs g word = true) ->
  NoDup gs ->
  (forall g, In g gs -> ~ In g (guessed_letter self)) ->
  (forall c, In c (Str.chars word) -> c <> " "%char ->
             In (Str.single c) (guessed_letter self) \/ In (Str.single c) gs) ->
  List.length gs < fuel ->
  exists final out',
    play_game_loop assets fuel self (mkWorld (gs ++ rest) out)
    = Some (Returns final (mkWorld rest out'))
    /\ check_game_won final = true /\ missed_letter final = []
    /\ player_name final = name /\ chosen_word final = word.
Proof.
  induction gs as [|g gs IH];
    intros history self fuel out Hst Hinv Hmiss Hgs Hhits Hnd Hnew Hcov Hfuel.
  - destruct fuel as [|fuel]; [cbn in Hfuel; lia|].
    assert (Hwon : check_game_won self = true).
    { apply check_game_won_iff_hits; [eapply invariant_no_placeholder, Hinv|].
      rewrite (inv_word _ _ _ _ Hinv). intros c Hc Hsp.
      destruct (Hcov c Hc Hsp) as [H|[]]. exact H. }
    cbn [play_game_loop app]. rewrite end_of_game_eq, Hwon. cbn.
    exists self, out. repeat split; trivial; apply Hinv.
  - destruct fuel as [|fuel]; [cbn in Hfuel; lia|].
    inversion Hgs as [|? ? Hg Hrest]; subst.
    inversion Hnd as [|? ? Hnotin Hnd']; subst.
    assert (Hocc : occurs g word = true) by (apply Hhits; now left).
    assert (Hng : ~ In g (guessed_letter self)) by (apply Hnew; now left).
    destruct Hg as [c [-> [Ha Hl]]].
    assert (Hletter : is_letter (Str.single c)) by (exists c; auto).
    assert (Hc : In c (Str.chars word)).
    { rewrite occurs_single in Hocc. now apply contains_single_In. }
    assert (Hend : end_of_game self = false).
    { rewrite end_of_game_eq, Hmiss. cbn. rewrite orb_false_r.
      apply not_true_iff_false. intros Hwon.
      apply Hng.
      apply (proj1 (check_game_won_iff_hits self
                      (invariant_no_placeholder _ _ _ _ Hinv)) Hwon).
      - now rewrite (inv_word _ _ _ _ Hinv).
      - now apply letter_not_space. }
    destruct (play_game_turn assets fuel self (Str.single c) (gs ++ rest) out
                stage Hend) as [out1 Hturn];
      [now rewrite Hmiss | assumption |].
    cbn [app]. rewrite Hturn.
    pose proof (invariant_step _ _ _ _ _ Hinv Hletter) as Hinv'.
    assert (Hstep : check_letters_with (Str.single c) self
                    = (mkHangman (player_name self) (chosen_word self)
                         [] (guessed_letter self ++ [Str.single c]), [])).
    { rewrite with_new by (try assumption; rewrite Hmiss; tauto).
      now rewrite (inv_word _ _ _ _ Hinv), Hocc, Hmiss. }
    rewrite Hstep in *. cbn [fst] in *.
    apply (IH _ _ _ out1 Hst Hinv'); trivial.
    + intros g' Hg'. apply Hhits. now right.
    + cbn. intros g' Hg' Hin. apply in_app_or in Hin as [Hin|[<-|[]]].
      * apply (Hnew g'); [now right | assumption].
      * contradiction.
    + cbn. intros c' Hc' Hsp. destruct (Hcov c' Hc' Hsp) as [H|[H|H]].
      * left. apply in_or_app. now left.
      * left. apply in_or_app. right. now left.
      * now right.
    + cbn in Hfuel. lia.
Qed.

(** X20. A round played without a miss: the player types a name, then
    distinct letters of the word that cover all its characters but the
    spaces.  [play_game] returns after exactly these lines, leaving what
    follows unread, and its last words are the congratulation to that
    player and the word.  One stage is enough for it. *)
Theorem play_game_flawless assets r name word stage gs rest out :
  nth_error (stages assets) 0 = Some stage ->
  get_random_word assets r = Some word ->
  name <> EmptyString ->
  Forall is_letter gs ->
  NoDup gs ->
  (forall g, In g gs -> occurs g word = true) ->
  (forall c, In c (Str.chars word) -> c <> " "%char -> In (Str.single c) gs) ->
  exists w' before,
    play_game assets r (mkWorld (name :: gs ++ rest) out)
    = Some (Returns tt w')
    /\ stdin w' = rest
    /\ stdout w'
       = before ++ [Print (msg_won name); Print (msg_word word)].
Proof.
  intros Hst Hword Hname Hgs Hnd Hhits Hcov.
  unfold play_game. rewrite (init_typed _ _ _ _ _ _ Hname Hword).
  cbn [stdin].
  destruct (winning_turns assets name word stage rest gs []
              (Hangman_init name word) (S (List.length (gs ++ rest)))
              (out ++ [Print (hangman_logo assets); Print (center welcome 50);
                       Prompt name_prompt]) Hst (invariant_init name word))
    as [final [out' [Hrun [Hwon [Hmiss [Hn Hw]]]]]]; trivial.
  - cbn. tauto.
  - intros c Hc Hsp. right. now apply Hcov.
  - rewrite length_app. lia.
  - rewrite Hrun. unfold play_game_end, display_game_status.
    rewrite Hmiss. cbn [List.length]. rewrite Hst.
    eexists. eexists. split; [reflexivity|].
    rewrite print_game_result_stdin. split; [reflexivity|].
    unfold print_game_result, emit. rewrite Hwon, Hn, Hw. cbn [stdout].
    rewrite <- app_assoc. reflexivity.
Qed.

Lemma play_game_flawless_witness :
  exists w' before,
    play_game (mkAssets "LOGO" ["0"] ["dog"; "a cat"]) 3
      (mkWorld ["ann"; "t"; "c"; "a"; "n"] [])
    = Some (Returns tt w')
    /\ stdin w' = ["n"]
    /\ stdout w'
       = before ++ [Print (msg_won "ann"); Print (msg_word "a cat")].
Proof.
  apply (play_game_flawless (mkAssets "LOGO" ["0"] ["dog"; "a cat"]) 3
           "ann" "a cat" "0" ["t"; "c"; "a"] ["n"] []).
  - reflexivity.
  - reflexivity.
  - discriminate.
  - repeat constructor;
      [exists "t"%char | exists "c"%char | exists "a"%char]; repeat split.
  - repeat constructor; cbn; intuition discriminate.
  - cbn. intros g [<-|[<-|[<-|[]]]]; reflexivity.
  - cbn. intros c [<-|[<-|[<-|[<-|[<-|[]]]]]] Hsp; auto.
Defined.

Lemma no_hits_not_won self c :
  guessed_letter self = [] ->
  In c (Str.chars (chosen_word self)) -> c <> " "%char ->
  check_game_won self = false.
Proof.
  intros Hg Hc Hsp. apply not_true_iff_false. intros Hwon.
  assert (Hnp : ~ In "_"%string (guessed_letter self))
    by (rewrite Hg; cbn; tauto).
  pose proof (proj1 (check_game_won_iff_hits self Hnp) Hwon c Hc Hsp) as Hin.
  now rewrite Hg in Hin.
Qed.

Lemma losing_turns assets c0 rest : forall gs self fuel out,
  7 <= List.length (stages assets) ->
  In c0 (Str.chars (chosen_word self)) -> c0 <> " "%char ->
  guessed_letter self = [] ->
  Forall is_letter gs ->
  (forall g, In g gs -> occurs g (chosen_word self) = false) ->
  NoDup (missed_letter self ++ gs) ->
  List.length (missed_letter self) + List.length gs = 6 ->
  List.length gs < fuel ->
  exists final out',
    play_game_loop assets fuel self (mkWorld (gs ++ rest) out)
    = Some (Returns final (mkWorld rest out'))
    /\ check_game_won final = false
    /\ missed_letter final = missed_letter self ++ gs
    /\ guessed_letter final = []
    /\ player_name final = player_name self
    /\ chosen_word final = chosen_word self.
Proof.
  induction gs as [|g gs IH];
    intros self fuel out Hst Hc0 Hsp Hnone Hgs Hmiss Hnd Hlen Hfuel.
  - destruct fuel as [|fuel]; [cbn in Hfuel; lia|].
    cbn [play_game_loop app]. rewrite end_of_game_eq.
    cbn in Hlen. rewrite Nat.add_0_r in Hlen. rewrite Hlen. cbn.
    rewrite orb_true_r. cbn. exists self, out. rewrite app_nil_r.
    repeat split; trivial. eapply no_hits_not_won; eassumption.
  - destruct fuel as [|fuel]; [cbn in Hfuel; lia|].
    inversion Hgs as [|? ? Hg Hrest]; subst.
    assert (Hocc : occurs g (chosen_word self) = false)
      by (apply Hmiss; now left).
    assert (Hnm : ~ In g (missed_letter self)).
    { intros Hin. apply NoDup_remove_2 in Hnd. apply Hnd.
      apply in_or_app. now left. }
    assert (Hwon : check_game_won self = false)
      by (eapply no_hits_not_won; eassumption).
    cbn [List.length] in Hlen.
    assert (Hend : end_of_game self = false).
    { rewrite end_of_game_eq, Hwon. cbn. apply Nat.eqb_neq. lia. }
    destruct (nth_error (stages assets) (List.length (missed_letter self)))
      as [stage|] eqn:Hstage; [|apply nth_error_None in Hstage; lia].
    destruct (play_game_turn assets fuel self g (gs ++ rest) out stage
                Hend Hstage Hg) as [out1 Hturn].
    cbn [app]. rewrite Hturn.
    assert (Hstep : check_letters_with g self
                    = (mkHangman (player_name self) (chosen_word self)
                         (missed_letter self ++ [g]) [], [])).
    { destruct Hg as [c [-> _]].
      rewrite with_new by (try assumption; rewrite Hnone; cbn; tauto).
      now rewrite Hocc, Hnone. }
    rewrite Hstep. cbn [fst].
    destruct (IH (mkHangman (player_name self) (chosen_word self)
                    (missed_letter self ++ [g]) []) fuel out1)
      as [final [out' [Hrun [Hw [Hm [Hgl [Hn Hcw]]]]]]]; cbn; trivial.
    + intros g' Hg'. apply Hmiss. now right.
    + now rewrite <- app_assoc.
    + rewrite length_app. cbn. lia.
    + cbn in Hfuel. lia.
    + exists final, out'. cbn in Hm, Hn, Hcw. rewrite <- app_assoc in Hm.
      repeat (split; [assumption|]). assumption.
Qed.

(** X21. A round played without a hit: on a word that is not blank, the
    player types a name and then six distinct letters that are not in the
    word.  With seven stages [play_game] returns after exactly these lines,
    leaving what follows unread; the last status shows the last stage and
    the six letters in the order typed, and the last words are the lost
    message to that player and the word. *)
Theorem play_game_hopeless assets r name word c gs rest out :
  7 <= List.length (stages assets) ->
  get_random_word assets r = Some word ->
  name <> EmptyString ->
  In c (Str.chars word) -> c <> " "%char ->
  List.length gs = 6 ->
  Forall is_letter gs ->
  NoDup gs ->
  (forall g, In g gs -> occurs g word = false) ->
  exists w' before stage,
    play_game assets r (mkWorld (name :: gs ++ rest) out)
    = Some (Returns tt w')
    /\ stdin w' = rest
    /\ nth_error (stages assets) 6 = Some stage
    /\ stdout w'
       = before
         ++ Print stage :: status_lines (mkHangman name word gs [])
         ++ [Print (msg_lost name); Print (msg_word word)].
Proof.
  intros Hst Hword Hname Hc Hsp Hlen Hgs Hnd Hmiss.
  unfold play_game. rewrite (init_typed _ _ _ _ _ _ Hname Hword).
  cbn [stdin].
  destruct (losing_turns assets c rest gs (Hangman_init name word)
              (S (List.length (gs ++ rest)))
              (out ++ [Print (hangman_logo assets); Print (center welcome 50);
                       Prompt name_prompt])
              Hst Hc Hsp eq_refl Hgs Hmiss Hnd Hlen)
    as [final [out' [Hrun [Hwon [Hm [Hgl [Hn Hw]]]]]]].
  - rewrite length_app. lia.
  - rewrite Hrun. cbn in Hm, Hn, Hw.
    assert (Hfinal : final = mkHangman name word gs [])
      by (destruct final; cbn in *; congruence).
    subst final.
    destruct (nth_error (stages assets) 6) as [stage|] eqn:Hstage;
      [|apply nth_error_None in Hstage; lia].
    unfold play_game_end, display_game_status. cbn [missed_letter].
    rewrite Hlen, Hstage.
    eexists. exists out', stage. split; [reflexivity|].
    rewrite print_game_result_stdin. split; [reflexivity|].
    split; [reflexivity|].
    unfold print_game_result, emit. rewrite Hwon. cbn.
    rewrite <- !app_assoc. reflexivity.
Qed.

Lemma play_game_hopeless_witness :
  exists w' before stage,
    play_game (mkAssets "LOGO" ["0"; "1"; "2"; "3"; "4"; "5"; "6"] ["dog"]) 0
      (mkWorld ["ann"; "q"; "w"; "e"; "r"; "t"; "y"; "yes"] [])
    = Some (Returns tt w')
    /\ stdin w' = ["yes"]
    /\ nth_error ["0"; "1"; "2"; "3"; "4"; "5"; "6"] 6 = Some stage
    /\ stdout w'
       = before
         ++ Print stage
            :: status_lines
                 (mkHangman "ann" "dog" ["q"; "w"; "e"; "r"; "t"; "y"] [])
         ++ [Print (msg_lost "ann"); Print (msg_word "dog")].
Proof.
  apply (play_game_hopeless
           (mkAssets "LOGO" ["0"; "1"; "2"; "3"; "4"; "5"; "6"] ["dog"]) 0
           "ann" "dog" "d"%char ["q"; "w"; "e"; "r"; "t"; "y"] ["yes"] []).
  - cbn. lia.
  - reflexivity.
  - discriminate.
  - cbn. auto.
  - discriminate.
  - reflexivity.
  - repeat constructor;
      [exists "q"%char | exists "w"%char | exists "e"%char
       | exists "r"%char | exists "t"%char | exists "y"%char];
      repeat split.
  - repeat constructor; cbn; intuition discriminate.
  - cbn. intros g [<-|[<-|[<-|[<-|[<-|[<-|[]]]]]]]; reflexivity.
Defined.
